(** * The xray resource tree of k9s: TreeNode, its path codec, hydration,
    ordering, diffing and filtering.

    The development follows the Go source (package xray).  Two views of
    the TreeNode structure are used:

    - the value view (a rose tree), in which a *TreeNode is the subtree
      it points to, the Parent link of a node is the chain of nodes above
      it, and a pointer into a tree under construction is the list of
      child indexes leading to it from the root;
    - the arena view (module [Shared]), in which nodes and Extras maps
      live at addresses, used where the identity of the Extras storage
      matters (ShallowClone). *)

From Stdlib Require Import Ascii String.
From stdpp Require Import base option list strings gmap fin_maps.
From Stdlib Require Import Permutation.

Local Open Scope string_scope.
Local Open Scope list_scope.
Local Open Scope nat_scope.

#[local] Set Warnings "-clear-no-such-hyp".

(** ** Run-time outcomes

    Go functions of this package have no error results; what they can do
    besides returning is to stop with a run-time panic. *)

Inductive fault : Type :=
  | NilDereference      (* field access through a nil *TreeNode *)
  | IndexOutOfRange     (* s[i] with i outside of s *)
  | NilMapWrite.        (* m[k] = v on a nil map *)

Inductive outcome (A : Type) : Type :=
  | Ok (a : A)
  | Panic (e : fault).
Arguments Ok {A} a.
Arguments Panic {A} e.

Definition obind {A B} (m : outcome A) (k : A → outcome B) : outcome B :=
  match m with
  | Ok a => k a
  | Panic e => Panic e
  end.

Notation "x ←! m ; k" := (obind m (fun x => k))
  (at level 20, m at level 100, k at level 200, right associativity,
   only parsing).

(** s[i] on a slice. *)
Definition index {A} (s : list A) (i : nat) : outcome A :=
  match s !! i with
  | Some a => Ok a
  | None => Panic IndexOutOfRange
  end.

(** ** Constants *)

Definition PathSeparator : string := "::".
Definition StatusKey : string := "status".
Definition InfoKey : string := "info".
Definition OkStatus : string := "ok".
Definition ToastStatus : string := "toast".
Definition CompletedStatus : string := "completed".
Definition MissingRefStatus : string := "noref".

(** ** strings.Join and strings.Split (for a non-empty separator) *)

Fixpoint strings_Join (elems : list string) (sep : string) : string :=
  match elems with
  | [] => ""
  | [e] => e
  | e :: rest => e +:+ sep +:+ strings_Join rest sep
  end.

(** [split_scan sep skip cur s] scans [s] from the left.  [cur] is the
    segment read so far; [skip] counts the characters of a separator
    occurrence that are still to be passed over.  The separator is cut at
    its leftmost occurrences, which do not overlap. *)
Fixpoint split_scan (sep : string) (skip : nat) (cur : string) (s : string)
  : list string :=
  match s with
  | EmptyString => [cur]
  | String c rest =>
      match skip with
      | S k => split_scan sep k cur rest
      | O =>
          if String.prefix sep s
          then cur :: split_scan sep (String.length sep - 1) "" rest
          else split_scan sep 0 (cur +:+ String c "") rest
      end
  end.

Definition strings_Split (s sep : string) : list string :=
  split_scan sep 0 "" s.

(** ** NodeSpec and TreeNode *)

(** The Parent field of NodeSpec is never read nor written in the
    package; the three chains are the whole value. *)
Record NodeSpec : Type := mkNodeSpec {
  specGVR : string;
  specPath : string;
  specStatus : string;
}.

(** Extras is a Go map; every constructor of the package allocates it, so
    the nil map is not represented in the value view.  Children holds the
    nodes the slice points to, Parent is kept outside of the node (see
    [Spec] and [Flatten]). *)
Unset Elimination Schemes.
Inductive TreeNode : Type := mkTreeNode {
  GVR : string;
  ID : string;
  Children : list TreeNode;
  Extras : gmap string string;
}.
Set Elimination Schemes.

(** NewTreeNode returns a new instance. *)
Definition NewTreeNode (gvr id : string) : TreeNode :=
  mkTreeNode gvr id [] {[ StatusKey := OkStatus ]}.

(** The status a node shows in its spec: Extras[StatusKey], the empty
    string when the key is missing. *)
Definition status_of (t : TreeNode) : string :=
  default "" (Extras t !! StatusKey).

(** CountChildren returns the children count.  The receiver is a pointer:
    reading t.Children through nil stops the program. *)
Definition CountChildren (t : option TreeNode) : outcome nat :=
  match t with
  | Some n => Ok (length (Children n))
  | None => Panic NilDereference
  end.

(** Count all the nodes from this node. *)
Fixpoint Count (t : TreeNode) (gvr : string) : nat :=
  match t with
  | mkTreeNode g _ cs _ =>
      let counter :=
        if bool_decide (g = gvr) || bool_decide (gvr = "") then 1 else 0 in
      foldl (fun counter c => counter + Count c gvr) counter cs
  end.

(** Diff on two present nodes: after the child counts were found equal,
    Children[i] exists on both sides for every i of the loop. *)
Fixpoint Diff_present (t d : TreeNode) : bool :=
  match t, d with
  | mkTreeNode tg ti tcs te, mkTreeNode dg di dcs de =>
      if negb (bool_decide (length tcs = length dcs)) then true
      else if negb (bool_decide (ti = di)) || negb (bool_decide (tg = dg))
              || negb (bool_decide (te = de)) then true
      else
        (fix loop (cs ds : list TreeNode) : bool :=
           match cs, ds with
           | c :: cs', d' :: ds' =>
               if Diff_present c d' then true else loop cs' ds'
           | _, _ => false
           end) tcs dcs
  end.

(** Diff computes a tree diff; the operands are pointers, [None] is nil. *)
Definition Diff (t d : option TreeNode) : outcome bool :=
  match t with
  | None => Ok (bool_decide (d ≠ None))
  | Some tn =>
      nt ←! CountChildren t;
      nd ←! CountChildren d;
      if negb (bool_decide (nt = nd)) then Ok true
      else match d with
           | None => Panic NilDereference
           | Some dn => Ok (Diff_present tn dn)
           end
  end.

(** Spec returns this node specification.  [chain] is the node followed
    by its Parent, the Parent of that one, and so on up to the root: what
    the loop [for parent != nil] visits. *)
Definition Spec (chain : list TreeNode) : NodeSpec :=
  mkNodeSpec (strings_Join (map GVR chain) PathSeparator)
             (strings_Join (map ID chain) PathSeparator)
             (strings_Join (map status_of chain) PathSeparator).

(** IsLeaf returns true if node has no children. *)
Definition IsLeaf (t : TreeNode) : bool :=
  bool_decide (length (Children t) = 0).

(** Flatten returns a collection of node specs.  [ups] is the Parent
    chain of [t] (nearest first, empty for a root). *)
Fixpoint Flatten (ups : list TreeNode) (t : TreeNode) : list NodeSpec :=
  match t with
  | mkTreeNode _ _ cs _ =>
      foldl (fun refs c =>
               if IsLeaf c then refs ++ [Spec (c :: t :: ups)]
               else refs ++ Flatten (t :: ups) c) [] cs
  end.

(** Blank returns true if this node is unset. *)
Definition Blank (t : TreeNode) : bool :=
  bool_decide (GVR t = "") && bool_decide (ID t = "").

(** Add adds a new child node (the child's Parent is its position). *)
Definition Add (c : TreeNode) (t : TreeNode) : TreeNode :=
  mkTreeNode (GVR t) (ID t) (Children t ++ [c]) (Extras t).

(** The first child, from index [k] on, for which [f] answers. *)
Fixpoint first_child {A} (f : TreeNode → option A) (k : nat)
    (cs : list TreeNode) : option (nat * A) :=
  match cs with
  | [] => None
  | c :: cs' =>
      match f c with
      | Some v => Some (k, v)
      | None => first_child f (S k) cs'
      end
  end.

(** Find locates a node given a gvr/id spec.  The node found is given by
    the child indexes that lead to it from the receiver ([[]] is the
    receiver itself); [None] is nil. *)
Fixpoint Find (t : TreeNode) (gvr id : string) : option (list nat) :=
  match t with
  | mkTreeNode g i cs _ =>
      if bool_decide (g = gvr) && bool_decide (i = id) then Some []
      else match first_child (fun c => Find c gvr id) 0 cs with
           | Some (k, v) => Some (k :: v)
           | None => None
           end
  end.

(** The node a pointer designates, and an in-place update through it. *)
Fixpoint subtree (t : TreeNode) (nav : list nat) : option TreeNode :=
  match nav with
  | [] => Some t
  | k :: nav' =>
      match Children t !! k with
      | Some c => subtree c nav'
      | None => None
      end
  end.

Fixpoint alter_at (f : TreeNode → TreeNode) (nav : list nat) (t : TreeNode)
  : TreeNode :=
  match nav with
  | [] => f t
  | k :: nav' =>
      mkTreeNode (GVR t) (ID t) (alter (alter_at f nav') k (Children t))
                 (Extras t)
  end.

(** nav.GVR, nav.ID, nav.Extras[StatusKey] = g, p, s *)
Definition assign (g p s : string) (t : TreeNode) : TreeNode :=
  mkTreeNode g p (Children t) (<[ StatusKey := s ]> (Extras t)).

(** c := NewTreeNode(g, p); c.Extras[StatusKey] = s *)
Definition new_child (g p s : string) : TreeNode :=
  assign g p s (NewTreeNode g p).

(** One turn of the inner loop of Hydrate, on the tree under [root] with
    the cursor [nav]. *)
Definition hydrate_step (st : TreeNode * list nat) (g p s : string)
  : TreeNode * list nat :=
  let '(root, nav) := st in
  match subtree root nav with
  | None => st
  | Some n =>
      if Blank n then (alter_at (assign g p s) nav root, nav)
      else
        let c := new_child g p s in
        match Find n g p with
        | None => (alter_at (Add c) nav root, nav ++ [length (Children n)])
        | Some v => (root, nav ++ v)
        end
  end.

(** for i := len(paths) - 1; i >= 0; i-- : [k] turns are left, the next
    one reads index [k - 1] of the three slices. *)
Fixpoint hydrate_loop (gvrs paths statuses : list string) (k : nat)
    (st : TreeNode * list nat) : outcome (TreeNode * list nat) :=
  match k with
  | O => Ok st
  | S i =>
      g ←! index gvrs i;
      p ←! index paths i;
      s ←! index statuses i;
      hydrate_loop gvrs paths statuses i (hydrate_step st g p s)
  end.

Definition hydrate_ref (root : TreeNode) (ref : NodeSpec) : outcome TreeNode :=
  let gvrs := strings_Split (specGVR ref) PathSeparator in
  let paths := strings_Split (specPath ref) PathSeparator in
  let statuses := strings_Split (specStatus ref) PathSeparator in
  st ←! hydrate_loop gvrs paths statuses (length paths) (root, []);
  Ok (fst st).

Fixpoint hydrate_refs (root : TreeNode) (refs : list NodeSpec)
  : outcome TreeNode :=
  match refs with
  | [] => Ok root
  | ref :: rest => root' ←! hydrate_ref root ref; hydrate_refs root' rest
  end.

(** Hydrate hydrates a full tree bases on a collection of specifications. *)
Definition Hydrate (refs : list NodeSpec) : outcome TreeNode :=
  hydrate_refs (NewTreeNode "" "") refs.

(** Filter filters the node based on query. *)
Definition Filter (ups : list TreeNode) (t : option TreeNode) (q : string)
    (filter : string → string → bool) : outcome (option TreeNode) :=
  match t with
  | None => Panic NilDereference
  | Some n =>
      let specs := Flatten ups n in
      let matches :=
        List.filter (fun s => filter q (specPath s +:+ specStatus s)) specs in
      if bool_decide (length matches = 0) then Ok None
      else r ←! Hydrate matches; Ok (Some r)
  end.

(** ** The sibling order *)

(** The maximal runs of digits and of other characters of an identity,
    and the number a digit run stands for. *)
Definition is_digit (c : ascii) : bool :=
  bool_decide (48 ≤ nat_of_ascii c ≤ 57)%nat.

Fixpoint runs (s : string) : list (bool * string) :=
  match s with
  | EmptyString => []
  | String c rest =>
      match runs rest with
      | (d, r) :: more =>
          if bool_decide (d = is_digit c) then (d, String c r) :: more
          else (is_digit c, String c "") :: (d, r) :: more
      | [] => [(is_digit c, String c "")]
      end
  end.

Fixpoint digits_value (acc : N) (s : string) : N :=
  match s with
  | EmptyString => acc
  | String c rest =>
      digits_value (10 * acc + N.of_nat (nat_of_ascii c - 48))%N rest
  end.

(** A digit run against a digit run as numbers, a text run against a
    text run as plain text; the spec does not say how a digit run
    compares with a text run at the same place: the digit run is taken
    to come first. *)
Definition run_compare (a b : bool * string) : comparison :=
  match a, b with
  | (true, x), (true, y) => N.compare (digits_value 0 x) (digits_value 0 y)
  | (false, x), (false, y) => String.compare x y
  | (true, _), (false, _) => Lt
  | (false, _), (true, _) => Gt
  end.

Fixpoint runs_compare (xs ys : list (bool * string)) : comparison :=
  match xs, ys with
  | [], [] => Eq
  | [], _ :: _ => Lt
  | _ :: _, [] => Gt
  | x :: xs', y :: ys' =>
      match run_compare x y with
      | Eq => runs_compare xs' ys'
      | c => c
      end
  end.

(** Run by run; when every run compares equal, the plain (ordinal) order
    of the two identities decides. *)
Definition natural_compare (str1 str2 : string) : comparison :=
  match runs_compare (runs str1) (runs str2) with
  | Eq => String.compare str1 str2
  | c => c
  end.

(** Modelled from the spec: sortorder.NaturalLess, of the library
    vbom.ml/util/sortorder, is not among the sources.  Section 4.3 of the
    spec is followed: embedded digit runs are treated as numbers,
    non-digit runs compare as plain text, ties are broken by the ordinal
    order. *)
Definition NaturalLess (str1 str2 : string) : bool :=
  match natural_compare str1 str2 with
  | Lt => true
  | _ => false
  end.

(** Less returns true if i < j. *)
Definition Less (c : list TreeNode) (i j : nat) : outcome bool :=
  n1 ←! index c i;
  n2 ←! index c j;
  Ok (NaturalLess (ID n1) (ID n2)).

(** sort.IsSorted on a Childrens value: no element is Less than the one
    before it. *)
Definition IsSorted (c : list TreeNode) : Prop :=
  ∀ i, S i < length c → Less c (S i) i = Ok false.

(** What sort.Sort promises for a Childrens value: the slice is permuted
    (only Swap moves elements) and ends up in ascending order as
    determined by Less.  The library states that the sort is not
    guaranteed to be stable. *)
Definition sorts (sort_Sort : list TreeNode → list TreeNode) : Prop :=
  ∀ c, Permutation (sort_Sort c) c ∧ IsSorted (sort_Sort c).

(** Sort sorts the tree nodes.  sort.Sort is not among the sources and is
    a parameter.  It permutes the slice of child pointers, and c.Sort()
    rewrites the nodes behind these pointers; the only field Less reads,
    ID, is left alone by Sort, so that the value view may rebuild the
    children before it orders them. *)
Fixpoint Sort (sort_Sort : list TreeNode → list TreeNode) (t : TreeNode)
  : TreeNode :=
  match t with
  | mkTreeNode g i cs e => mkTreeNode g i (sort_Sort (map (Sort sort_Sort) cs)) e
  end.

(** Two sort.Sort candidates, both by insertion from the right end: the
    first puts an element before the ones it ties with, the second after
    them. *)
Fixpoint insert_before (x : TreeNode) (c : list TreeNode) : list TreeNode :=
  match c with
  | [] => [x]
  | y :: c' =>
      if NaturalLess (ID y) (ID x) then y :: insert_before x c'
      else x :: y :: c'
  end.

Fixpoint insert_after (x : TreeNode) (c : list TreeNode) : list TreeNode :=
  match c with
  | [] => [x]
  | y :: c' =>
      if NaturalLess (ID x) (ID y) then x :: y :: c'
      else y :: insert_after x c'
  end.

Definition insertion_sort (c : list TreeNode) : list TreeNode :=
  foldr insert_before [] c.

Definition reversing_sort (c : list TreeNode) : list TreeNode :=
  foldr insert_after [] c.

(** ** Lineages

    What one level contributes to a spec: type, identity and status. *)
Definition seg : Type := string * string * string.

Definition seg_of (t : TreeNode) : seg := (GVR t, ID t, status_of t).

Definition seg_gvr (x : seg) : string := x.1.1.
Definition seg_id (x : seg) : string := x.1.2.
Definition seg_status (x : seg) : string := x.2.

(** The spec of a leaf-first lineage. *)
Definition spec_of (lineage : list seg) : NodeSpec :=
  mkNodeSpec (strings_Join (map seg_gvr lineage) PathSeparator)
             (strings_Join (map seg_id lineage) PathSeparator)
             (strings_Join (map seg_status lineage) PathSeparator).

(** The three chains of a lineage split back into its levels. *)
Definition splits_back (lineage : list seg) : bool :=
  bool_decide
    (strings_Split (specGVR (spec_of lineage)) PathSeparator
       = map seg_gvr lineage
     ∧ strings_Split (specPath (spec_of lineage)) PathSeparator
       = map seg_id lineage
     ∧ strings_Split (specStatus (spec_of lineage)) PathSeparator
       = map seg_status lineage).

(** The root-first lineages of the leaves at or below a child [c], and of
    the leaves strictly below a node [t]. *)
Fixpoint child_paths (c : TreeNode) : list (list seg) :=
  match c with
  | mkTreeNode _ _ cs _ =>
      if IsLeaf c then [[seg_of c]]
      else map (cons (seg_of c)) (flat_map child_paths cs)
  end.

Definition below (t : TreeNode) : list (list seg) :=
  flat_map child_paths (Children t).

Definition root_paths (t : TreeNode) : list (list seg) :=
  map (cons (seg_of t)) (below t).

(** All the nodes of a tree, the receiver first, depth first. *)
Fixpoint subtrees (t : TreeNode) : list TreeNode :=
  match t with
  | mkTreeNode _ _ cs _ => t :: flat_map subtrees cs
  end.

(** The inner loop of Hydrate as a recursion on the node under the
    cursor: what happens to that node while the levels [segs] (root
    first) are walked. *)
Fixpoint ins (segs : list seg) (t : TreeNode) : TreeNode :=
  match segs with
  | [] => t
  | (g, p, s) :: rest =>
      if Blank t then ins rest (assign g p s t)
      else match Find t g p with
           | None => Add (ins rest (new_child g p s)) t
           | Some v => alter_at (ins rest) v t
           end
  end.

(** The part of a tree that leads to the leaves whose root-first lineage
    satisfies [keep]; every node kept carries its status and nothing
    else.  [keep] reads the lineage from the node's own level on. *)
Fixpoint prune (keep : list seg → bool) (t : TreeNode) : TreeNode :=
  match t with
  | mkTreeNode g i cs _ =>
      mkTreeNode g i
        (flat_map (fun c =>
                     if existsb (fun p => keep (seg_of t :: p)) (child_paths c)
                     then [prune (fun p => keep (seg_of t :: p)) c]
                     else []) cs)
        {[ StatusKey := status_of t ]}
  end.

(** *** Conditions on a tree *)

(** No node that has children is blank. *)
Definition inner_named (t : TreeNode) : bool :=
  forallb (fun n => IsLeaf n || negb (Blank n)) (subtrees t).

(** Every child is what Find answers for the child's own type and
    identity when asked from its parent. *)
Definition found_first (n : TreeNode) : bool :=
  forallb (fun k =>
             match Children n !! k with
             | Some c => bool_decide (Find n (GVR c) (ID c) = Some [k])
             | None => true
             end) (seq 0 (length (Children n))).

Definition find_local (t : TreeNode) : bool :=
  forallb found_first (subtrees t).

(** Every leaf lineage of the tree splits back into its levels. *)
Definition codec_ok (t : TreeNode) : bool :=
  forallb (fun p => splits_back (rev p)) (root_paths t).

(** No colon in a string, and in the type, identity and status of every
    node of a tree. *)
Fixpoint colon_free (s : string) : bool :=
  match s with
  | EmptyString => true
  | String c rest => negb (Ascii.eqb c ":") && colon_free rest
  end.

Definition seg_plain (x : seg) : bool :=
  colon_free (seg_gvr x) && colon_free (seg_id x) && colon_free (seg_status x).

Definition plain (t : TreeNode) : bool :=
  forallb (fun n => seg_plain (seg_of n)) (subtrees t).

(** Every node carries a status and nothing else. *)
Definition status_only (t : TreeNode) : Prop :=
  Forall (fun n => Extras n = {[ StatusKey := status_of n ]}) (subtrees t).

(** The haystack Filter hands to the predicate. *)
Definition haystack (s : NodeSpec) : string := specPath s +:+ specStatus s.

(** ** The arena view: nodes and Extras maps at addresses *)

Module Shared.

Abbreviation addr := nat.

Record Node : Type := mkNode {
  nGVR : string;
  nID : string;
  nChildren : list addr;
  nParent : option addr;
  nExtras : option addr;     (* the map value: a reference, nil = None *)
}.

Record Heap : Type := mkHeap {
  nodes : gmap addr Node;
  maps : gmap addr (gmap string string);
}.

(** A fresh address of each kind. *)
Definition fresh_node (h : Heap) : addr := fresh (dom (nodes h)).
Definition fresh_map (h : Heap) : addr := fresh (dom (maps h)).

(** NewTreeNode returns a new instance. *)
Definition NewTreeNode (gvr id : string) (h : Heap) : Heap * addr :=
  let m := fresh_map h in
  let h1 := mkHeap (nodes h) (<[ m := {[ StatusKey := OkStatus ]} ]> (maps h)) in
  let a := fresh_node h1 in
  (mkHeap (<[ a := mkNode gvr id [] None (Some m) ]> (nodes h1)) (maps h1), a).

(** ShallowClone performs a shallow node clone:
    &TreeNode{GVR: t.GVR, ID: t.ID, Extras: t.Extras}. *)
Definition ShallowClone (t : option addr) (h : Heap) : outcome (Heap * addr) :=
  match t with
  | None => Panic NilDereference
  | Some ta =>
      match nodes h !! ta with
      | None => Panic NilDereference
      | Some n =>
          let a := fresh_node h in
          Ok (mkHeap (<[ a := mkNode (nGVR n) (nID n) [] None (nExtras n) ]>
                        (nodes h))
                     (maps h), a)
      end
  end.

(** t.Extras[k] = v *)
Definition set_extra (t : addr) (k v : string) (h : Heap) : outcome Heap :=
  match nodes h !! t with
  | None => Panic NilDereference
  | Some n =>
      match nExtras n with
      | None => Panic NilMapWrite
      | Some m =>
          match maps h !! m with
          | None => Panic NilMapWrite
          | Some e => Ok (mkHeap (nodes h) (<[ m := <[ k := v ]> e ]> (maps h)))
          end
      end
  end.

(** t.Extras[k], the empty string when the key or the map is missing. *)
Definition get_extra (t : addr) (k : string) (h : Heap) : outcome string :=
  match nodes h !! t with
  | None => Panic NilDereference
  | Some n =>
      match nExtras n with
      | None => Ok ""
      | Some m =>
          match maps h !! m with
          | None => Ok ""
          | Some e => Ok (default "" (e !! k))
          end
      end
  end.

End Shared.

(** ** Definitions used to state the properties *)

(** The nodes [Count] counts: all of them for the empty type, those of
    the type otherwise. *)
Definition counted (gvr : string) (n : TreeNode) : bool :=
  bool_decide (GVR n = gvr) || bool_decide (gvr = "").

(** The type or the status chain of [ref] has fewer segments than its
    identity chain. *)
Definition short (ref : NodeSpec) : Prop :=
  length (strings_Split (specGVR ref) PathSeparator)
    < length (strings_Split (specPath ref) PathSeparator)
  ∨ length (strings_Split (specStatus ref) PathSeparator)
    < length (strings_Split (specPath ref) PathSeparator).

(** The three chains of [ref] do not have the same number of segments. *)
Definition malformed (ref : NodeSpec) : Prop :=
  ¬ (length (strings_Split (specGVR ref) PathSeparator)
       = length (strings_Split (specPath ref) PathSeparator)
     ∧ length (strings_Split (specStatus ref) PathSeparator)
       = length (strings_Split (specPath ref) PathSeparator)).

#[global] Instance short_dec ref : Decision (short ref).
Proof. unfold short. apply _. Defined.

#[global] Instance malformed_dec ref : Decision (malformed ref).
Proof. unfold malformed. apply _. Defined.

(** Ascending order, by recursion on the slice. *)
Fixpoint ascending (c : list TreeNode) : Prop :=
  match c with
  | x :: c' =>
      match c' with
      | y :: _ => NaturalLess (ID y) (ID x) = false ∧ ascending c'
      | [] => True
      end
  | [] => True
  end.

(** One turn of the inner loop of Hydrate, for a level. *)
Definition step_seg (st : TreeNode * list nat) (x : seg) : TreeNode * list nat :=
  hydrate_step st (seg_gvr x) (seg_id x) (seg_status x).

(** The children [prune] keeps. *)
Definition prune_children (keep : list seg → bool) (cs : list TreeNode)
  : list TreeNode :=
  flat_map (fun c => if existsb keep (child_paths c) then [prune keep c] else [])
           cs.

(** What follows the own level of a child in its lineages. *)
Definition tails (c : TreeNode) : list (list seg) :=
  if IsLeaf c then [[]] else below c.

(** The node Hydrate makes for a level. *)
Definition level_node (x : seg) : TreeNode :=
  mkTreeNode (seg_gvr x) (seg_id x) [] {[ StatusKey := seg_status x ]}.

(** The outer loop of Hydrate on root-first lineages, without the
    splitting of the chains. *)
Definition ins_all (ps : list (list seg)) (t : TreeNode) : TreeNode :=
  fold_left (fun r p => ins p r) ps t.

(** The tree of the scenario: a namespace, a deployment and its two
    pods, the second one not ready. *)
Definition scenario : TreeNode :=
  mkTreeNode "namespaces" "default"
    [mkTreeNode "deployments" "foo"
       [mkTreeNode "pods" "foo-1" [] {[ StatusKey := OkStatus ]};
        mkTreeNode "pods" "foo-2" [] {[ StatusKey := ToastStatus ]}]
       {[ StatusKey := OkStatus ]}]
    {[ StatusKey := OkStatus ]}.

(** Its two leaf specs. *)
Definition scenario_specs : list NodeSpec :=
  [mkNodeSpec "pods::deployments::namespaces" "foo-1::foo::default" "ok::ok::ok";
   mkNodeSpec "pods::deployments::namespaces" "foo-2::foo::default"
              "toast::ok::ok"].

(** A filter predicate: the haystack starts with the query. *)
Definition starts_with (q haystack : string) : bool := String.prefix q haystack.





(** ** Further operations of the package *)

(** Go's int on the 64-bit platforms k9s is built for: the result of an
    addition, wrapped around. *)
Definition int_wrap (z : Z) : Z :=
  ((z + 2 ^ 63) mod 2 ^ 64 - 2 ^ 63)%Z.

(** MaxDepth computes the max tree depth. *)
Fixpoint MaxDepth (t : TreeNode) (depth : Z) : Z :=
  match t with
  | mkTreeNode _ _ cs _ =>
      foldl (fun max c =>
               let m := MaxDepth c (int_wrap (depth + 1)) in
               if (m >? max)%Z then m else max) depth cs
  end.

(** Clear delete all descendant nodes: t.Children = []*TreeNode{}. *)
Definition Clear (t : TreeNode) : TreeNode :=
  mkTreeNode (GVR t) (ID t) [] (Extras t).

(** ShallowClone in the value view: the clone has the type, the identity
    and the Extras of the receiver and neither children nor parent (that
    the Extras map is shared is told by [Shared.ShallowClone]). *)
Definition ShallowClone (t : TreeNode) : TreeNode :=
  mkTreeNode (GVR t) (ID t) [] (Extras t).

(** A node has the type and the identity Find looks for. *)
Definition is_match (gvr id : string) (n : TreeNode) : bool :=
  bool_decide (GVR n = gvr) && bool_decide (ID n = id).

(** The number of edges on the longest way down from a node. *)
Fixpoint height (t : TreeNode) : nat :=
  match t with
  | mkTreeNode _ _ cs _ => foldr (fun c h => Nat.max (S (height c)) h) 0 cs
  end.

(** The nodes strictly below a node. *)
Definition descendants (t : TreeNode) : list TreeNode :=
  flat_map subtrees (Children t).

(** A tree with the attributes of every node cut down to its status. *)
Fixpoint strip (t : TreeNode) : TreeNode :=
  match t with
  | mkTreeNode g i cs _ =>
      mkTreeNode g i (map strip cs) {[ StatusKey := status_of t ]}
  end.

(** What a node is by itself: type, identity and attributes. *)
Definition label (n : TreeNode) : string * string * gmap string string :=
  (GVR n, ID n, Extras n).

(** Len returns the list size. *)
Definition Len (c : list TreeNode) : nat := length c.

(** Swap swaps list values: c[i], c[j] = c[j], c[i].  The two right-hand
    sides are read first, then c[i] and c[j] are written in this order. *)
Definition Swap (c : list TreeNode) (i j : nat) : outcome (list TreeNode) :=
  cj ←! index c j;
  ci ←! index c i;
  Ok (<[ j := ci ]> (<[ i := cj ]> c)).

(** Some node of the tree has the type and the identity. *)
Definition has (gvr id : string) (t : TreeNode) : bool :=
  existsb (is_match gvr id) (subtrees t).

(** *** Parent links, in the arena view

    Add, Clear, Level, Root and IsRoot on nodes at addresses, where the
    Parent pointers are.  The loops of Level and Root follow Parent; they
    are given a number of turns, and answer [None] when the loop is
    still running after these.  As in [Shared], an address that is not
    allocated is treated like nil. *)

Module Links.

Import Shared.

Definition with_parent (n : Node) (p : option addr) : Node :=
  mkNode (nGVR n) (nID n) (nChildren n) p (nExtras n).

Definition with_children (n : Node) (cs : list addr) : Node :=
  mkNode (nGVR n) (nID n) cs (nParent n) (nExtras n).

(** Add adds a new child node:
    c.Parent = t; t.Children = append(t.Children, c). *)
Definition Add (t c : option addr) (h : Heap) : outcome Heap :=
  match c with
  | None => Panic NilDereference
  | Some ca =>
      match nodes h !! ca with
      | None => Panic NilDereference
      | Some cn =>
          let h1 := mkHeap (<[ ca := with_parent cn t ]> (nodes h)) (maps h) in
          match t with
          | None => Panic NilDereference
          | Some ta =>
              match nodes h1 !! ta with
              | None => Panic NilDereference
              | Some tn =>
                  Ok (mkHeap (<[ ta := with_children tn (nChildren tn ++ [ca]) ]>
                                (nodes h1))
                             (maps h1))
              end
          end
      end
  end.

(** Clear delete all descendant nodes: t.Children = []*TreeNode{}. *)
Definition Clear (t : option addr) (h : Heap) : outcome Heap :=
  match t with
  | None => Panic NilDereference
  | Some ta =>
      match nodes h !! ta with
      | None => Panic NilDereference
      | Some tn =>
          Ok (mkHeap (<[ ta := with_children tn [] ]> (nodes h)) (maps h))
      end
  end.

(** IsRoot returns true if node is top node. *)
Definition IsRoot (t : option addr) (h : Heap) : outcome bool :=
  match t with
  | None => Panic NilDereference
  | Some ta =>
      match nodes h !! ta with
      | None => Panic NilDereference
      | Some tn => Ok (bool_decide (nParent tn = None))
      end
  end.

(** for p != nil { p = p.Parent; level++ }: [None] when [fuel] turns do
    not end the loop. *)
Fixpoint level_loop (fuel : nat) (h : Heap) (p : option addr) (level : Z)
  : option (outcome Z) :=
  match p with
  | None => Some (Ok level)
  | Some a =>
      match fuel with
      | O => None
      | S fuel' =>
          match nodes h !! a with
          | None => Some (Panic NilDereference)
          | Some n => level_loop fuel' h (nParent n) (int_wrap (level + 1))
          end
      end
  end.

(** Level computes the current node level. *)
Definition Level (fuel : nat) (t : option addr) (h : Heap)
  : option (outcome Z) :=
  match level_loop fuel h t 0 with
  | Some (Ok level) => Some (Ok (int_wrap (level - 1)))
  | r => r
  end.

(** Root returns the current tree root node. *)
Fixpoint Root (fuel : nat) (t : option addr) (h : Heap)
  : option (outcome (option addr)) :=
  match t with
  | None => Some (Ok None)
  | Some a =>
      match fuel with
      | O => None
      | S fuel' =>
          match nodes h !! a with
          | None => Some (Panic NilDereference)
          | Some n =>
              match nParent n with
              | None => Some (Ok (Some a))
              | Some _ => Root fuel' (nParent n) h
              end
          end
      end
  end.

(** [a] is allocated and [l] are the nodes above it, the nearest first,
    the last one without a parent. *)
Fixpoint ups (h : Heap) (a : addr) (l : list addr) : Prop :=
  match l with
  | [] => ∃ n, nodes h !! a = Some n ∧ nParent n = None
  | b :: l' => ∃ n, nodes h !! a = Some n ∧ nParent n = Some b ∧ ups h b l'
  end.

(** The Parent and the Children field at an address. *)
Definition parent_at (h : Heap) (a : addr) : option (option addr) :=
  nParent <$> nodes h !! a.

Definition children_at (h : Heap) (a : addr) : option (list addr) :=
  nChildren <$> nodes h !! a.

(** A namespace and a pod, not linked yet. *)
Definition two_nodes : Heap * addr * addr :=
  let '(h1, ns) := NewTreeNode "v1/namespaces" "default" (mkHeap ∅ ∅) in
  let '(h2, pod) := NewTreeNode "v1/pods" "default/foo" h1 in
  (h2, ns, pod).

End Links.

(** * Properties *)

(** ** Induction on trees *)

Lemma TreeNode_ind' (P : TreeNode → Prop) :
  (∀ g i cs e, Forall P cs → P (mkTreeNode g i cs e)) → ∀ t, P t.
Proof.
  intros H. fix IH 1. intros [g i cs e]. apply H.
  induction cs as [|c cs IHcs]; constructor; [apply IH | exact IHcs].
Qed.

Lemma TreeNode_eta t : t = mkTreeNode (GVR t) (ID t) (Children t) (Extras t).
Proof. by destruct t. Qed.

(** ** Diff *)

Lemma Diff_present_spec t d : Diff_present t d = false ↔ t = d.
Proof.
  revert d. induction t as [tg ti tcs te IH] using TreeNode_ind'.
  intros [dg di dcs de]. cbn [Diff_present].
  case_bool_decide as Hlen; cbn [negb]; [|split; [done | intros [= -> -> -> ->]; done]].
  destruct (bool_decide (ti = di)) eqn:Hi; cbn [negb orb];
    [apply bool_decide_eq_true in Hi as ->
    |apply bool_decide_eq_false in Hi; split; [done | intros [=]; done]].
  destruct (bool_decide (tg = dg)) eqn:Hg; cbn [negb orb];
    [apply bool_decide_eq_true in Hg as ->
    |apply bool_decide_eq_false in Hg; split; [done | intros [=]; done]].
  destruct (bool_decide (te = de)) eqn:He; cbn [negb orb];
    [apply bool_decide_eq_true in He as ->
    |apply bool_decide_eq_false in He; split; [done | intros [=]; done]].
  clear -IH Hlen. revert dcs Hlen.
  induction IH as [|c cs Hc _ IHcs]; intros [|d' ds] Hlen; try done.
  destruct (Diff_present c d') eqn:Hcd.
  - split; [done|]. intros [= -> ->]. apply not_false_iff_true in Hcd.
    destruct Hcd. by apply Hc.
  - apply Hc in Hcd as ->. simpl in Hlen.
    destruct (IHcs ds ltac:(lia)) as [H1 H2]. split.
    + intros H. apply H1 in H. by injection H as ->.
    + intros [= ->]. by apply H2.
Qed.

Lemma Diff_present_refl t : Diff_present t t = false.
Proof. by apply Diff_present_spec. Qed.

Lemma Diff_refl t : Diff (Some t) (Some t) = Ok false.
Proof.
  cbn. rewrite bool_decide_eq_true_2 by done. cbn.
  by rewrite Diff_present_refl.
Qed.

(** C1. Diff with an absent operand.  With both operands absent the
    answer is "not different" and with only the receiver absent it is
    "different", but with the receiver present and the argument absent
    the call d.CountChildren() reads d.Children through nil: Diff stops
    with a nil dereference instead of answering "different". *)
Theorem Diff_absent_operand :
  (∀ a, Diff (Some a) None = Panic NilDereference)
  ∧ Diff None None = Ok false
  ∧ (∀ b, Diff None (Some b) = Ok true).
Proof. repeat split. Qed.

(** ** Count *)

Lemma subtrees_eq t : subtrees t = t :: flat_map subtrees (Children t).
Proof. by destruct t. Qed.

Lemma Count_eq t gvr :
  Count t gvr =
  foldl (fun counter c => counter + Count c gvr)
        (if bool_decide (GVR t = gvr) || bool_decide (gvr = "") then 1 else 0)
        (Children t).
Proof. by destruct t. Qed.

Lemma foldl_add {A} (f : A → nat) (l : list A) (k : nat) :
  foldl (fun counter c => counter + f c) k l = k + sum_list (map f l).
Proof.
  revert k. induction l as [|x l IH]; intros k; simpl; [lia|].
  rewrite IH. lia.
Qed.

Lemma Count_counted t gvr :
  Count t gvr = length (List.filter (counted gvr) (subtrees t)).
Proof.
  induction t as [g i cs e IH] using TreeNode_ind'.
  rewrite Count_eq, subtrees_eq, foldl_add. cbn [Children GVR List.filter].
  unfold counted at 1. cbn [GVR].
  assert (sum_list (map (fun c => Count c gvr) cs)
          = length (List.filter (counted gvr) (flat_map subtrees cs))) as ->.
  { induction IH as [|c cs Hc _ IHcs]; [done|].
    cbn [map sum_list flat_map]. rewrite List.filter_app, length_app.
    by rewrite Hc, IHcs. }
  by destruct (bool_decide (g = gvr) || bool_decide (gvr = "")).
Qed.

(** C8. Count with the empty type counts every node of the subtree, the
    receiver included; with another type it counts the nodes of the
    subtree that have this type. *)
Theorem Count_total_and_by_type (n : TreeNode) :
  Count n "" = length (subtrees n)
  ∧ ∀ t, t ≠ "" →
      Count n t
      = length (List.filter (fun m => bool_decide (GVR m = t)) (subtrees n)).
Proof.
  split.
  - rewrite Count_counted. f_equal.
    rewrite <- (List.filter_ext_in (fun _ => true)).
    + induction (subtrees n) as [|x l IH]; [done|]. simpl. by f_equal.
    + intros m _. unfold counted. by rewrite orb_true_r.
  - intros t Ht. rewrite Count_counted. f_equal.
    apply List.filter_ext. intros m. unfold counted.
    by rewrite (bool_decide_eq_false_2 (t = "")), orb_false_r.
Qed.

(** ** Find *)

Lemma Find_eq t gvr id :
  Find t gvr id =
  if bool_decide (GVR t = gvr) && bool_decide (ID t = id) then Some []
  else match first_child (fun c => Find c gvr id) 0 (Children t) with
       | Some (k, v) => Some (k :: v)
       | None => None
       end.
Proof. by destruct t. Qed.

Lemma Find_root t gvr id :
  Find t gvr id = Some [] ↔ GVR t = gvr ∧ ID t = id.
Proof.
  rewrite Find_eq. split.
  - destruct (bool_decide (GVR t = gvr)) eqn:Hg;
      destruct (bool_decide (ID t = id)) eqn:Hi; cbn [andb];
      try (destruct (first_child _ 0 (Children t)) as [[k v]|]; discriminate).
    apply bool_decide_eq_true in Hg, Hi. done.
  - intros [Hg Hi]. by rewrite !bool_decide_eq_true_2.
Qed.

Lemma subtree_app t nav v :
  subtree t (nav ++ v) = subtree t nav ≫= (fun n => subtree n v).
Proof.
  revert t. induction nav as [|k nav IH]; intros t; [done|].
  cbn [app subtree]. destruct (Children t !! k); [apply IH | done].
Qed.

(** ** Hydrate and the segment counts *)

Lemma index_lt {A} (s : list A) i : i < length s → ∃ a, index s i = Ok a.
Proof.
  intros H. unfold index. destruct (lookup_lt_is_Some_2 s i H) as [a ->].
  by exists a.
Qed.

Lemma index_ge {A} (s : list A) i :
  length s ≤ i → index s i = Panic IndexOutOfRange.
Proof. intros H. unfold index. by rewrite lookup_ge_None_2. Qed.

Lemma hydrate_loop_ok gvrs paths statuses k st :
  k ≤ length gvrs → k ≤ length paths → k ≤ length statuses →
  ∃ st', hydrate_loop gvrs paths statuses k st = Ok st'.
Proof.
  revert st. induction k as [|i IH]; intros st Hg Hp Hs; [by eexists|].
  cbn [hydrate_loop].
  destruct (index_lt gvrs i ltac:(lia)) as [g ->].
  destruct (index_lt paths i ltac:(lia)) as [p ->].
  destruct (index_lt statuses i ltac:(lia)) as [s ->].
  cbn [obind]. apply IH; lia.
Qed.

Lemma hydrate_loop_short gvrs paths statuses st :
  length gvrs < length paths ∨ length statuses < length paths →
  hydrate_loop gvrs paths statuses (length paths) st = Panic IndexOutOfRange.
Proof.
  intros H. destruct (length paths) as [|i] eqn:Hlen; [lia|].
  cbn [hydrate_loop].
  destruct (decide (length gvrs ≤ i)) as [Hg|Hg].
  { by rewrite (index_ge gvrs i Hg). }
  destruct (index_lt gvrs i ltac:(lia)) as [g ->].
  destruct (index_lt paths i ltac:(lia)) as [p ->].
  cbn [obind]. rewrite (index_ge statuses i) by lia. done.
Qed.

Lemma hydrate_ref_outcome root ref :
  match hydrate_ref root ref with
  | Ok _ => ¬ short ref
  | Panic e => e = IndexOutOfRange ∧ short ref
  end.
Proof.
  unfold hydrate_ref. destruct (decide (short ref)) as [Hs|Hs].
  - rewrite hydrate_loop_short by exact Hs. done.
  - unfold short in Hs.
    destruct (hydrate_loop_ok
                (strings_Split (specGVR ref) PathSeparator)
                (strings_Split (specPath ref) PathSeparator)
                (strings_Split (specStatus ref) PathSeparator)
                (length (strings_Split (specPath ref) PathSeparator))
                (root, [])) as [st ->]; [lia..|].
    exact Hs.
Qed.

Lemma hydrate_refs_outcome root refs :
  match hydrate_refs root refs with
  | Ok _ => Forall (fun ref => ¬ short ref) refs
  | Panic e => e = IndexOutOfRange ∧ Exists short refs
  end.
Proof.
  revert root. induction refs as [|ref refs IH]; intros root; [by constructor|].
  cbn [hydrate_refs]. pose proof (hydrate_ref_outcome root ref) as H.
  destruct (hydrate_ref root ref) as [root'|e]; cbn [obind].
  - specialize (IH root'). destruct (hydrate_refs root' refs).
    + by constructor.
    + destruct IH as [-> IH]. split; [done|]. by apply Exists_cons_tl.
  - destruct H as [-> H]. split; [done|]. by apply Exists_cons_hd.
Qed.

(** C2, as the code has it.  Hydrate has no error result of its own.  It
    walks the segments of the identity chain and reads the other two
    chains at the same indexes: it returns a tree exactly when no spec
    has a type or status chain with fewer segments than its identity
    chain (segments in excess are not looked at), and it stops with the
    run-time index-out-of-range panic exactly when some spec has. *)
Theorem Hydrate_outcome (refs : list NodeSpec) :
  match Hydrate refs with
  | Ok _ => Forall (fun ref => ¬ short ref) refs
  | Panic e => e = IndexOutOfRange ∧ Exists short refs
  end.
Proof. apply hydrate_refs_outcome. Qed.

(** A spec whose chains disagree in length is hydrated without any error
    when the identity chain is the shortest, and is an out-of-range
    access when it is not. *)
Lemma Hydrate_malformed_counterexample :
  let surplus := mkNodeSpec "pods::deployments" "foo" "ok" in
  let lacking := mkNodeSpec "pods" "foo::bar" "ok::ok" in
  malformed surplus
  ∧ Hydrate [surplus] = Ok (mkTreeNode "pods" "foo" [] {[ StatusKey := "ok" ]})
  ∧ malformed lacking
  ∧ Hydrate [lacking] = Panic IndexOutOfRange.
Proof.
  cbv zeta. split; [by vm_compute; intros [? ?]|].
  split; [vm_compute; reflexivity|].
  split; [by vm_compute; intros [? ?]|].
  vm_compute; reflexivity.
Qed.

(** ** Filter *)

Lemma filter_nil_iff {A} (f : A → bool) (l : list A) :
  List.filter f l = [] ↔ Forall (fun x => f x = false) l.
Proof.
  induction l as [|x l IH]; simpl; [by split; [constructor|]|].
  destruct (f x) eqn:Hx.
  - split; [done|]. intros H. apply Forall_cons_1 in H as [H _]. congruence.
  - rewrite IH. split; [by constructor | by intros [_ ?]%Forall_cons_1].
Qed.

(** C5. Filter on a present node answers nil exactly when no spec of
    the flattened node has a haystack the predicate accepts; the haystack
    of a spec is its identity chain followed by its status chain.  Any
    other answer is the tree hydrated from the accepted specs. *)
Theorem Filter_absent_iff (ups : list TreeNode) (n : TreeNode) (q : string)
    (matches : string → string → bool) :
  (Filter ups (Some n) q matches = Ok None
   ↔ Forall (fun s => matches q (specPath s +:+ specStatus s) = false)
            (Flatten ups n))
  ∧ (∀ r, Filter ups (Some n) q matches = Ok r →
          r = None
          ∨ ∃ t, r = Some t
                 ∧ Hydrate (List.filter
                              (fun s => matches q (specPath s +:+ specStatus s))
                              (Flatten ups n)) = Ok t).
Proof.
  unfold Filter.
  set (kept := List.filter _ (Flatten ups n)).
  split.
  - rewrite <- filter_nil_iff. fold kept.
    case_bool_decide as Hlen.
    + split; [|done]. intros _. by destruct kept.
    + split.
      * destruct (Hydrate kept); discriminate.
      * intros H. rewrite H in Hlen. done.
  - intros r. case_bool_decide as Hlen.
    + intros [= <-]. by left.
    + destruct (Hydrate kept) as [t|e]; [|discriminate].
      intros [= <-]. right. by exists t.
Qed.

(** ** ShallowClone *)

Lemma fresh_node_unused h : Shared.nodes h !! Shared.fresh_node h = None.
Proof. unfold Shared.fresh_node. apply not_elem_of_dom. apply is_fresh. Qed.

(** C9. ShallowClone of a node returns a node at a new address, with the
    type and the identity of the source, no children and no parent, and
    with the very Extras map of the source, which is not copied: a value
    written under a key through the clone is read under that key through
    the source, and the other way round. *)
Theorem ShallowClone_shares_Extras (h : Shared.Heap) (t : Shared.addr)
    (n : Shared.Node) :
  Shared.nodes h !! t = Some n →
  ∃ h' c nc,
    Shared.ShallowClone (Some t) h = Ok (h', c)
    ∧ c ≠ t ∧ Shared.nodes h !! c = None
    ∧ Shared.nodes h' !! c = Some nc
    ∧ Shared.nodes h' !! t = Some n
    ∧ Shared.maps h' = Shared.maps h
    ∧ Shared.nGVR nc = Shared.nGVR n ∧ Shared.nID nc = Shared.nID n
    ∧ Shared.nChildren nc = [] ∧ Shared.nParent nc = None
    ∧ Shared.nExtras nc = Shared.nExtras n
    ∧ ∀ m e k v,
        Shared.nExtras n = Some m → Shared.maps h !! m = Some e →
        (∃ h2, Shared.set_extra c k v h' = Ok h2
               ∧ Shared.get_extra t k h2 = Ok v
               ∧ Shared.get_extra c k h2 = Ok v)
        ∧ (∃ h2, Shared.set_extra t k v h' = Ok h2
                 ∧ Shared.get_extra c k h2 = Ok v
                 ∧ Shared.get_extra t k h2 = Ok v).
Proof.
  intros Hn.
  pose proof (fresh_node_unused h) as Hfresh.
  set (c := Shared.fresh_node h) in *.
  assert (c ≠ t) as Hct by (intros ->; congruence).
  set (nc := Shared.mkNode (Shared.nGVR n) (Shared.nID n) [] None
                           (Shared.nExtras n)).
  set (h' := Shared.mkHeap (<[ c := nc ]> (Shared.nodes h)) (Shared.maps h)).
  assert (Shared.nodes h' !! c = Some nc) as Hc by apply lookup_insert_eq.
  assert (Shared.nodes h' !! t = Some n) as Ht
    by (cbn; by rewrite lookup_insert_ne).
  exists h', c, nc.
  split; [unfold Shared.ShallowClone; by rewrite Hn|].
  do 10 (split; [done|]).
  intros m e k v Hm He.
  set (h2 := Shared.mkHeap (Shared.nodes h')
                           (<[ m := <[ k := v ]> e ]> (Shared.maps h'))).
  assert (Shared.set_extra c k v h' = Ok h2) as Hsetc.
  { unfold Shared.set_extra. rewrite Hc. cbn [Shared.nExtras nc].
    rewrite Hm. cbn [Shared.maps h']. by rewrite He. }
  assert (Shared.set_extra t k v h' = Ok h2) as Hsett.
  { unfold Shared.set_extra. rewrite Ht, Hm. cbn [Shared.maps h'].
    by rewrite He. }
  assert (Shared.get_extra t k h2 = Ok v) as Hgett.
  { unfold Shared.get_extra. cbn [Shared.nodes h2]. rewrite Ht, Hm.
    cbn [Shared.maps h2]. by rewrite !lookup_insert_eq. }
  assert (Shared.get_extra c k h2 = Ok v) as Hgetc.
  { unfold Shared.get_extra. cbn [Shared.nodes h2]. rewrite Hc.
    cbn [Shared.nExtras nc]. rewrite Hm.
    cbn [Shared.maps h2]. by rewrite !lookup_insert_eq. }
  split; exists h2; done.
Qed.

Lemma ShallowClone_shares_Extras_witness :
  let h0 := Shared.mkHeap ∅ ∅ in
  let h := (Shared.NewTreeNode "pods" "default/foo" h0).1 in
  let t := (Shared.NewTreeNode "pods" "default/foo" h0).2 in
  let n := Shared.mkNode "pods" "default/foo" [] None (Some 0) in
  Shared.nodes h !! t = Some n
  ∧ ∃ h' c, Shared.ShallowClone (Some t) h = Ok (h', c) ∧ c ≠ t
      ∧ ∃ h2, Shared.set_extra c "status" "toast" h' = Ok h2
              ∧ Shared.get_extra t "status" h2 = Ok "toast".
Proof.
  intros h0 h t n.
  assert (Shared.nodes h !! t = Some n) as Hn by (vm_compute; reflexivity).
  assert (Shared.maps h !! 0 = Some {[ StatusKey := OkStatus ]})
    as He by (vm_compute; reflexivity).
  split; [exact Hn|].
  destruct (ShallowClone_shares_Extras h t n Hn)
    as (h' & c & nc & Hclone & Hne & _ & _ & _ & _ & _ & _ & _ & _ & _ & Hrw).
  exists h', c. split; [exact Hclone|]. split; [exact Hne|].
  destruct (Hrw 0 _ "status" "toast" eq_refl He) as [(h2 & Hset & Hget & _) _].
  by exists h2.
Defined.

(** ** The sibling order and Sort *)

Lemma run_compare_antisym a b : run_compare a b = CompOpp (run_compare b a).
Proof.
  destruct a as [[] x], b as [[] y]; cbn; try done.
  - apply N.compare_antisym.
  - apply String.compare_antisym.
Qed.

Lemma runs_compare_antisym xs ys :
  runs_compare xs ys = CompOpp (runs_compare ys xs).
Proof.
  revert ys. induction xs as [|x xs IH]; intros [|y ys]; cbn; try done.
  rewrite (run_compare_antisym x y).
  destruct (run_compare y x); cbn; [apply IH | done | done].
Qed.

Lemma natural_compare_antisym a b :
  natural_compare a b = CompOpp (natural_compare b a).
Proof.
  unfold natural_compare. rewrite (runs_compare_antisym (runs a) (runs b)).
  destruct (runs_compare (runs b) (runs a)); cbn;
    [apply String.compare_antisym | done | done].
Qed.

Lemma NaturalLess_asym a b : NaturalLess a b = true → NaturalLess b a = false.
Proof.
  unfold NaturalLess. rewrite (natural_compare_antisym b a).
  by destruct (natural_compare a b).
Qed.

Lemma IsSorted_ascending c : IsSorted c ↔ ascending c.
Proof.
  induction c as [|x c IH]; [by split; [|intros _ i Hi; simpl in Hi; lia]|].
  destruct c as [|y c].
  { split; [done|]. intros _ i Hi. simpl in Hi. lia. }
  cbn [ascending]. rewrite <- IH. split.
  - intros H. split.
    + specialize (H 0 ltac:(simpl; lia)). unfold Less in H. cbn in H. congruence.
    + intros i Hi. specialize (H (S i) ltac:(simpl in *; lia)). exact H.
  - intros [H1 H2] [|i] Hi.
    + unfold Less. cbn. by rewrite H1.
    + apply (H2 i). simpl in *. lia.
Qed.

Lemma insert_before_perm x c : Permutation (insert_before x c) (x :: c).
Proof.
  induction c as [|y c IH]; cbn; [done|].
  destruct (NaturalLess (ID y) (ID x)); [|done].
  rewrite IH. apply perm_swap.
Qed.

Lemma insert_after_perm x c : Permutation (insert_after x c) (x :: c).
Proof.
  induction c as [|y c IH]; cbn; [done|].
  destruct (NaturalLess (ID x) (ID y)); [done|].
  rewrite IH. apply perm_swap.
Qed.

Lemma insert_before_ascending x c :
  ascending c → ascending (insert_before x c).
Proof.
  induction c as [|y c IH]; [done|]. intros Hc. cbn [insert_before].
  destruct (NaturalLess (ID y) (ID x)) eqn:Hyx.
  - assert (ascending c) as Hc' by (destruct c; [done | apply Hc]).
    specialize (IH Hc'). destruct c as [|z c].
    + cbn. split; [by apply NaturalLess_asym | done].
    + cbn [insert_before] in *. destruct (NaturalLess (ID z) (ID x)).
      * split; [apply Hc | exact IH].
      * split; [by apply NaturalLess_asym | exact IH].
  - split; [exact Hyx | exact Hc].
Qed.

Lemma insert_after_ascending x c :
  ascending c → ascending (insert_after x c).
Proof.
  induction c as [|y c IH]; [done|]. intros Hc. cbn [insert_after].
  destruct (NaturalLess (ID x) (ID y)) eqn:Hxy.
  - split; [by apply NaturalLess_asym | exact Hc].
  - assert (ascending c) as Hc' by (destruct c; [done | apply Hc]).
    specialize (IH Hc'). destruct c as [|z c].
    + cbn. done.
    + cbn [insert_after] in *. destruct (NaturalLess (ID x) (ID z)).
      * split; [exact Hxy | exact IH].
      * split; [apply Hc | exact IH].
Qed.

Lemma insertion_sort_sorts : sorts insertion_sort.
Proof.
  intros c. unfold insertion_sort. split.
  - induction c as [|x c IH]; [done|]. cbn [foldr].
    rewrite insert_before_perm. by constructor.
  - apply IsSorted_ascending. induction c as [|x c IH]; [done|].
    cbn [foldr]. by apply insert_before_ascending.
Qed.

Lemma reversing_sort_sorts : sorts reversing_sort.
Proof.
  intros c. unfold reversing_sort. split.
  - induction c as [|x c IH]; [done|]. cbn [foldr].
    rewrite insert_after_perm. by constructor.
  - apply IsSorted_ascending. induction c as [|x c IH]; [done|].
    cbn [foldr]. by apply insert_after_ascending.
Qed.

Lemma Sort_eq srt t :
  Sort srt t
  = mkTreeNode (GVR t) (ID t) (srt (map (Sort srt) (Children t))) (Extras t).
Proof. by destruct t. Qed.


(** C4, as the code has it.  Sort orders the children of the node with
    sort.Sort, which is not a stable sort, and sorts every child: the
    node keeps its type, identity and attributes, its children are the
    sorted former children in some order, and at every level of the
    result the children are in ascending order for Less.  Nothing is
    promised on the relative order of children whose identities compare
    equal. *)
Theorem Sort_orders_every_level (sort_Sort : list TreeNode → list TreeNode)
    (t : TreeNode) :
  sorts sort_Sort →
  GVR (Sort sort_Sort t) = GVR t
  ∧ ID (Sort sort_Sort t) = ID t
  ∧ Extras (Sort sort_Sort t) = Extras t
  ∧ Permutation (Children (Sort sort_Sort t))
                (map (Sort sort_Sort) (Children t))
  ∧ Forall (fun n => IsSorted (Children n)) (subtrees (Sort sort_Sort t)).
Proof.
  intros Hsrt. rewrite Sort_eq. cbn [GVR ID Extras Children].
  do 3 (split; [done|]). split; [apply Hsrt|].
  induction t as [g i cs e IH] using TreeNode_ind'.
  rewrite subtrees_eq. cbn [Children]. constructor; [apply Hsrt|].
  apply Forall_flat_map, Forall_forall. intros n Hn.
  apply list_elem_of_In in Hn.
  apply (Permutation_in _ (proj1 (Hsrt _))) in Hn.
  apply in_map_iff in Hn as (c & <- & Hc).
  rewrite Forall_forall in IH. specialize (IH c (proj2 (list_elem_of_In _ _) Hc)).
  rewrite Sort_eq. exact IH.
Qed.

Lemma Sort_orders_every_level_witness :
  let t := Add (NewTreeNode "pods" "pod-2")
             (Add (NewTreeNode "pods" "pod-10") (NewTreeNode "ns" "default")) in
  sorts insertion_sort
  ∧ Forall (fun n => IsSorted (Children n)) (subtrees (Sort insertion_sort t)).
Proof.
  intros t. split; [exact insertion_sort_sorts|].
  exact (proj2 (proj2 (proj2 (proj2
           (Sort_orders_every_level insertion_sort t insertion_sort_sorts))))).
Defined.

(** A sort.Sort that keeps its promise and swaps two children whose
    identities compare equal: Sort is not stable. *)
Lemma Sort_stable_counterexample :
  let a := NewTreeNode "apps/v1/deployments" "default/foo" in
  let b := NewTreeNode "v1/services" "default/foo" in
  let t := Add b (Add a (NewTreeNode "v1/namespaces" "default")) in
  sorts reversing_sort
  ∧ Children t = [a; b]
  ∧ NaturalLess (ID a) (ID b) = false ∧ NaturalLess (ID b) (ID a) = false
  ∧ Children (Sort reversing_sort t) = [b; a].
Proof.
  cbv zeta. split; [exact reversing_sort_sorts|].
  repeat split; vm_compute; reflexivity.
Qed.
















(** ** Pointers into a tree *)

Lemma alter_at_app f nav v t :
  alter_at f (nav ++ v) t = alter_at (alter_at f v) nav t.
Proof.
  revert t. induction nav as [|k nav IH]; intros t; [done|].
  cbn [app alter_at]. f_equal. apply list_alter_ext; [|done].
  intros c _. apply IH.
Qed.

Lemma alter_at_at f g nav t n :
  subtree t nav = Some n → f n = g n → alter_at f nav t = alter_at g nav t.
Proof.
  revert t. induction nav as [|k nav IH]; intros t Hn Hfg.
  - cbn in *. by injection Hn as ->.
  - cbn [subtree alter_at] in *. f_equal.
    destruct (Children t !! k) as [c|] eqn:Hc; [|done].
    apply list_eq. intros j. rewrite !list_lookup_alter.
    case_decide as Hj; [subst j|done].
    rewrite Hc. cbn. f_equal. by apply IH.
Qed.

Lemma alter_at_compose f g nav t :
  alter_at f nav (alter_at g nav t) = alter_at (fun n => f (g n)) nav t.
Proof.
  revert t. induction nav as [|k nav IH]; intros t; [done|].
  cbn [alter_at GVR ID Children Extras]. f_equal.
  rewrite list_alter_alter_eq. apply list_alter_ext; [|done].
  intros c _. apply IH.
Qed.

Lemma subtree_alter_at f nav t n :
  subtree t nav = Some n → subtree (alter_at f nav t) nav = Some (f n).
Proof.
  revert t. induction nav as [|k nav IH]; intros t Hn.
  - cbn in *. by injection Hn as ->.
  - cbn [subtree alter_at Children] in *.
    destruct (Children t !! k) as [c|] eqn:Hc; [|done].
    rewrite list_lookup_alter, decide_True, Hc by done. cbn. by apply IH.
Qed.

Lemma first_child_Some {A} (f : TreeNode → option A) k0 cs k v :
  first_child f k0 cs = Some (k, v) →
  ∃ c, k0 ≤ k ∧ cs !! (k - k0) = Some c ∧ f c = Some v
       ∧ ∀ j c', j < k - k0 → cs !! j = Some c' → f c' = None.
Proof.
  revert k0. induction cs as [|c cs IH]; intros k0 H; [done|].
  cbn [first_child] in H. destruct (f c) as [w|] eqn:Hc.
  - injection H as <- <-. exists c. rewrite Nat.sub_diag.
    split; [lia|]. split; [done|]. split; [done|]. intros j c' Hj. lia.
  - apply IH in H as (c' & Hk & Hl & Hf & Hbefore). exists c'.
    split; [lia|]. replace (k - k0) with (S (k - S k0)) by lia.
    split; [done|]. split; [done|].
    intros [|j] c'' Hj Hl'; [by injection Hl' as <-|].
    apply (Hbefore j); [lia | done].
Qed.

Lemma first_child_None {A} (f : TreeNode → option A) k0 cs :
  first_child f k0 cs = None ↔ Forall (fun c => f c = None) cs.
Proof.
  revert k0. induction cs as [|c cs IH]; intros k0; [by split; [constructor|]|].
  cbn [first_child]. destruct (f c) as [w|] eqn:Hc.
  - split; [done|]. intros H. apply Forall_cons_1 in H as [H _]. congruence.
  - rewrite IH. split; [by constructor | by intros [_ ?]%Forall_cons_1].
Qed.

Lemma first_child_found {A} (f : TreeNode → option A) k0 cs1 c cs2 v :
  Forall (fun c' => f c' = None) cs1 → f c = Some v →
  first_child f k0 (cs1 ++ c :: cs2) = Some (k0 + length cs1, v).
Proof.
  revert k0. induction cs1 as [|c1 cs1 IH]; intros k0 Hnone Hc.
  - cbn. rewrite Hc. do 2 f_equal. lia.
  - apply Forall_cons_1 in Hnone as [H1 Hnone]. cbn. rewrite H1.
    rewrite IH by done. do 2 f_equal. lia.
Qed.

Lemma Find_found t gvr id v :
  Find t gvr id = Some v →
  ∃ m, subtree t v = Some m ∧ GVR m = gvr ∧ ID m = id.
Proof.
  revert v. induction t as [g i cs e IH] using TreeNode_ind'. intros v.
  rewrite Find_eq. cbn [GVR ID Children].
  destruct (bool_decide (g = gvr) && bool_decide (i = id)) eqn:Hm.
  - intros [= <-]. apply andb_true_iff in Hm as [Hg Hi].
    apply bool_decide_eq_true in Hg, Hi. by eexists.
  - destruct (first_child _ 0 cs) as [[k w]|] eqn:Hf; [|done].
    intros [= <-]. apply first_child_Some in Hf as (c & _ & Hc & Hw & _).
    rewrite Nat.sub_0_r in Hc. cbn [subtree Children]. rewrite Hc.
    rewrite Forall_forall in IH. apply (IH c); [|done].
    by eapply list_elem_of_lookup_2.
Qed.

Lemma Find_None t gvr id :
  Find t gvr id = None ↔
  ¬ (GVR t = gvr ∧ ID t = id)
  ∧ Forall (fun c => Find c gvr id = None) (Children t).
Proof.
  rewrite Find_eq.
  destruct (bool_decide (GVR t = gvr) && bool_decide (ID t = id)) eqn:Hm.
  - apply andb_true_iff in Hm as [Hg Hi]. apply bool_decide_eq_true in Hg, Hi.
    split; [done|]. intros [H _]. by destruct H.
  - assert (¬ (GVR t = gvr ∧ ID t = id)) as Hne.
    { intros [Hg Hi]. by rewrite !bool_decide_eq_true_2 in Hm. }
    rewrite <- (first_child_None _ 0).
    destruct (first_child _ 0 (Children t)) as [[k w]|]; [|done].
    split; [done|]. by intros [_ ?].
Qed.

Lemma Find_child t gvr id k :
  Find t gvr id = Some [k] ↔
  ¬ (GVR t = gvr ∧ ID t = id)
  ∧ ∃ c, Children t !! k = Some c ∧ GVR c = gvr ∧ ID c = id
         ∧ Forall (fun c' => Find c' gvr id = None) (take k (Children t)).
Proof.
  rewrite Find_eq.
  destruct (bool_decide (GVR t = gvr) && bool_decide (ID t = id)) eqn:Hm.
  - apply andb_true_iff in Hm as [Hg Hi]. apply bool_decide_eq_true in Hg, Hi.
    split; [done|]. intros [H _]. by destruct H.
  - assert (¬ (GVR t = gvr ∧ ID t = id)) as Hne.
    { intros [Hg Hi]. by rewrite !bool_decide_eq_true_2 in Hm. }
    split.
    + destruct (first_child _ 0 (Children t)) as [[k' w]|] eqn:Hf; [|done].
      intros [= -> ->]. split; [done|].
      apply first_child_Some in Hf as (c & _ & Hc & Hw & Hbefore).
      rewrite Nat.sub_0_r in Hc, Hbefore. exists c. split; [done|].
      apply Find_root in Hw as [Hg Hi]. do 2 (split; [done|]).
      apply Forall_forall. intros c' Hc'.
      apply list_elem_of_lookup in Hc' as [j Hj].
      apply lookup_take_Some in Hj as [Hj Hlt]. by apply (Hbefore j).
    + intros [_ (c & Hc & Hg & Hi & Hbefore)].
      rewrite <- (take_drop_middle (Children t) k c Hc).
      rewrite (first_child_found _ _ _ _ _ [] Hbefore)
        by (by apply Find_root).
      cbn. do 2 f_equal. rewrite length_take.
      apply lookup_lt_Some in Hc. lia.
Qed.

(** ** Find, depth first *)

Lemma head_filter_app {A} (K : A → bool) (l1 l2 : list A) :
  head (List.filter K (l1 ++ l2))
  = match head (List.filter K l1) with
    | Some x => Some x
    | None => head (List.filter K l2)
    end.
Proof.
  rewrite List.filter_app. by destruct (List.filter K l1).
Qed.

Lemma Find_head t gvr id :
  Find t gvr id ≫= subtree t
  = head (List.filter (is_match gvr id) (subtrees t)).
Proof.
  induction t as [g i cs e IH] using TreeNode_ind'.
  rewrite Find_eq, subtrees_eq. cbn [GVR ID Children List.filter].
  unfold is_match at 1. cbn [GVR ID].
  destruct (bool_decide (g = gvr) && bool_decide (i = id)); [done|].
  assert (∀ k0,
    match first_child (fun c => Find c gvr id) k0 cs with
    | Some (k, v) => cs !! (k - k0) ≫= (fun c => subtree c v)
    | None => None
    end = head (List.filter (is_match gvr id) (flat_map subtrees cs))) as H.
  { induction IH as [|c cs Hc _ IHcs]; intros k0; [done|].
    cbn [first_child flat_map]. rewrite head_filter_app, <- Hc.
    destruct (Find c gvr id) as [v|] eqn:Hv.
    - rewrite Nat.sub_diag. cbn.
      apply Find_found in Hv as (m & Hm & _). by rewrite Hm.
    - cbn. rewrite <- (IHcs (S k0)).
      destruct (first_child _ (S k0) cs) as [[k v]|] eqn:Hk; [|done].
      apply first_child_Some in Hk as (_ & Hle & _).
      by replace (k - k0) with (S (k - S k0)) by lia. }
  specialize (H 0).
  destruct (first_child _ 0 cs) as [[k v]|]; [|done].
  rewrite <- H, Nat.sub_0_r. cbn. by destruct (cs !! k).
Qed.

Lemma Find_None_subtrees t gvr id :
  Find t gvr id = None
  ↔ Forall (fun n => is_match gvr id n = false) (subtrees t).
Proof.
  pose proof (Find_head t gvr id) as H.
  rewrite <- filter_nil_iff. destruct (Find t gvr id) as [v|] eqn:Hv.
  - apply Find_found in Hv as (m & Hm & _). cbn in H. rewrite Hm in H.
    split; [done|]. intros Hnil. by rewrite Hnil in H.
  - split; [|done]. intros _. cbn in H.
    by destruct (List.filter _ _).
Qed.

Lemma subtree_subtrees nav : ∀ t n, subtree t nav = Some n → n ∈ subtrees t.
Proof.
  induction nav as [|k nav IH]; intros t n H; cbn in H.
  - injection H as ->. rewrite subtrees_eq. set_solver.
  - destruct (Children t !! k) as [c|] eqn:Hc; [|done].
    rewrite subtrees_eq. apply elem_of_cons. right.
    apply list_elem_of_In, in_flat_map. exists c. split.
    + apply list_elem_of_In. by eapply list_elem_of_lookup_2.
    + apply list_elem_of_In. by apply IH.
Qed.

(** C10. Find is a depth-first search that includes the receiver.
    Asked for the receiver's own type and identity it answers the
    receiver itself, and the receiver is the answer exactly when it
    matches.  In general the answer is the first node, in depth-first
    order from the receiver on, that has the type and the identity, so
    that every node at any depth is found by its own type and identity
    (or a node before it that carries the same).  In Hydrate, the lookup
    from a cursor that is not blank moves the cursor to that node and
    leaves the tree as it was: the cursor stays where it is when it
    carries the type and identity of the level at hand, and otherwise
    goes down to the match, a child or a node further below. *)
Theorem Find_self_first :
  (∀ n, Find n (GVR n) (ID n) = Some [])
  ∧ (∀ n gvr id, Find n gvr id = Some [] ↔ GVR n = gvr ∧ ID n = id)
  ∧ (∀ t gvr id,
       Find t gvr id ≫= subtree t
       = head (List.filter (is_match gvr id) (subtrees t)))
  ∧ (∀ t nav n,
       subtree t nav = Some n →
       ∃ v m, Find t (GVR n) (ID n) = Some v ∧ subtree t v = Some m
              ∧ GVR m = GVR n ∧ ID m = ID n)
  ∧ (∀ root nav n s,
       subtree root nav = Some n → Blank n = false →
       hydrate_step (root, nav) (GVR n) (ID n) s = (root, nav)
       ∧ subtree root (hydrate_step (root, nav) (GVR n) (ID n) s).2 = Some n)
  ∧ (∀ root nav n g p s v,
       subtree root nav = Some n → Blank n = false → Find n g p = Some v →
       hydrate_step (root, nav) g p s = (root, nav ++ v)
       ∧ ∃ m, subtree root (nav ++ v) = Some m ∧ GVR m = g ∧ ID m = p).
Proof.
  split; [|split; [|split; [|split; [|split]]]].
  - intros n. by apply Find_root.
  - apply Find_root.
  - apply Find_head.
  - intros t nav n Hn. apply subtree_subtrees in Hn.
    destruct (Find t (GVR n) (ID n)) as [v|] eqn:Hv.
    + destruct (Find_found _ _ _ _ Hv) as (m & Hm & Hg & Hi).
      by exists v, m.
    + apply Find_None_subtrees in Hv. rewrite Forall_forall in Hv.
      specialize (Hv n Hn). unfold is_match in Hv.
      by rewrite !bool_decide_eq_true_2 in Hv.
  - intros root nav n s Hn Hb. unfold hydrate_step. rewrite Hn, Hb.
    rewrite (proj2 (Find_root n (GVR n) (ID n))) by done.
    rewrite app_nil_r. done.
  - intros root nav n g p s v Hn Hb Hv. unfold hydrate_step.
    rewrite Hn, Hb, Hv. split; [done|].
    destruct (Find_found _ _ _ _ Hv) as (m & Hm & Hg & Hi).
    exists m. by rewrite subtree_app, Hn.
Qed.

Lemma Find_self_first_witness :
  let n := Add (NewTreeNode "pods" "p") (NewTreeNode "pods" "p") in
  subtree n [] = Some n ∧ Blank n = false
  ∧ hydrate_step (n, []) "pods" "p" "ok" = (n, [])
  ∧ subtree scenario [] = Some scenario ∧ Blank scenario = false
  ∧ Find scenario "pods" "foo-2" = Some [0; 1]
  ∧ hydrate_step (scenario, []) "pods" "foo-2" "toast" = (scenario, [0; 1]).
Proof.
  intros n. destruct Find_self_first as (_ & _ & _ & _ & Hself & Hdown).
  assert (Find scenario "pods" "foo-2" = Some [0; 1]) as Hv
    by (vm_compute; reflexivity).
  split; [reflexivity|]. split; [reflexivity|].
  split; [exact (proj1 (Hself n [] n "ok" eq_refl eq_refl))|].
  split; [reflexivity|]. split; [reflexivity|]. split; [exact Hv|].
  exact (proj1 (Hdown scenario [] scenario "pods" "foo-2" "toast" [0; 1]
                  eq_refl eq_refl Hv)).
Defined.

(** ** The inner loop of Hydrate, level by level *)

Lemma alter_at_Add f c n :
  alter_at f [length (Children n)] (Add c n) = Add (f c) n.
Proof.
  unfold Add. cbn [alter_at GVR ID Children Extras]. f_equal.
  rewrite <- (Nat.add_0_r (length (Children n))).
  by rewrite alter_app_r.
Qed.

Lemma subtree_Add c n : subtree (Add c n) [length (Children n)] = Some c.
Proof.
  cbn [subtree Add Children]. rewrite lookup_app_r by lia.
  by rewrite Nat.sub_diag.
Qed.

Lemma alter_at_id nav t : alter_at (fun n => n) nav t = t.
Proof.
  revert t. induction nav as [|k nav IH]; intros [g i cs e]; [done|].
  cbn [alter_at GVR ID Children Extras]. f_equal. by apply list_alter_id.
Qed.

Lemma steps_ins segs root nav n :
  subtree root nav = Some n →
  (fold_left step_seg segs (root, nav)).1 = alter_at (ins segs) nav root.
Proof.
  revert root nav n. induction segs as [|[[g p] s] rest IH];
    intros root nav n Hn.
  { cbn. symmetry. apply alter_at_id. }
  cbn [fold_left]. unfold step_seg at 2. cbn [seg_gvr seg_id seg_status fst snd].
  unfold hydrate_step. rewrite Hn. destruct (Blank n) eqn:Hb.
  - rewrite (IH _ _ (assign g p s n)) by (by apply subtree_alter_at).
    rewrite alter_at_compose. apply (alter_at_at _ _ _ _ n Hn).
    cbn [ins]. by rewrite Hb.
  - destruct (Find n g p) as [v|] eqn:Hf.
    + destruct (Find_found _ _ _ _ Hf) as (m & Hm & _).
      rewrite (IH _ _ m) by (by rewrite subtree_app, Hn).
      rewrite alter_at_app. apply (alter_at_at _ _ _ _ n Hn).
      cbn [ins]. by rewrite Hb, Hf.
    + rewrite (IH _ _ (new_child g p s)).
      2:{ rewrite subtree_app, (subtree_alter_at _ _ _ _ Hn). cbn [mbind option_bind].
          apply subtree_Add. }
      rewrite alter_at_app, alter_at_compose. apply (alter_at_at _ _ _ _ n Hn).
      cbn [ins]. rewrite Hb, Hf. apply alter_at_Add.
Qed.

Lemma hydrate_loop_fold (L : list seg) k st :
  k ≤ length L →
  hydrate_loop (map seg_gvr L) (map seg_id L) (map seg_status L) k st
  = Ok (fold_left step_seg (rev (take k L)) st).
Proof.
  revert st. induction k as [|i IH]; intros st Hk; [done|].
  destruct (lookup_lt_is_Some_2 L i ltac:(lia)) as [x Hx].
  cbn [hydrate_loop]. unfold index. rewrite !list_lookup_fmap, Hx.
  cbn [fmap option_fmap option_map obind].
  rewrite IH by lia. rewrite (take_S_r _ _ _ Hx), rev_app_distr. done.
Qed.

Lemma hydrate_ref_ins root (L : list seg) :
  splits_back L = true →
  hydrate_ref root (spec_of L) = Ok (ins (rev L) root).
Proof.
  intros H. apply bool_decide_eq_true in H as (Hg & Hp & Hs).
  unfold hydrate_ref. rewrite Hg, Hp, Hs, length_map.
  rewrite hydrate_loop_fold by done. cbn [obind].
  rewrite firstn_all. f_equal. by rewrite (steps_ins _ _ _ root).
Qed.

Lemma hydrate_refs_ins root (ps : list (list seg)) :
  forallb (fun p => splits_back (rev p)) ps = true →
  hydrate_refs root (map (fun p => spec_of (rev p)) ps)
  = Ok (fold_left (fun r p => ins p r) ps root).
Proof.
  revert root. induction ps as [|p ps IH]; intros root H; [done|].
  cbn [forallb] in H. apply andb_true_iff in H as [Hp Hps].
  cbn [map hydrate_refs fold_left]. rewrite hydrate_ref_ins by done.
  cbn [obind]. rewrite rev_involutive. by apply IH.
Qed.

(** ** Flatten, as lineages *)

Lemma foldl_app_flat_map {A B} (F : A → list B) (l : list A) (acc : list B) :
  foldl (fun refs c => refs ++ F c) acc l = acc ++ flat_map F l.
Proof.
  revert acc. induction l as [|x l IH]; intros acc; cbn.
  - by rewrite app_nil_r.
  - by rewrite IH, app_assoc.
Qed.

Lemma foldl_ext {A B} (f g : A → B → A) (l : list B) (a : A) :
  (∀ a x, f a x = g a x) → foldl f a l = foldl g a l.
Proof.
  intros H. revert a. induction l as [|x l IH]; intros a; [done|].
  cbn. by rewrite H, IH.
Qed.

Lemma Flatten_eq ups t :
  Flatten ups t
  = flat_map (fun c => if IsLeaf c then [Spec (c :: t :: ups)]
                       else Flatten (t :: ups) c) (Children t).
Proof.
  destruct t as [g i cs e]. cbn [Flatten Children].
  set (t := mkTreeNode g i cs e). clearbody t.
  rewrite <- (app_nil_l (flat_map _ cs)), <- foldl_app_flat_map.
  apply foldl_ext. intros refs c. by destruct (IsLeaf c).
Qed.

Lemma child_paths_eq c :
  child_paths c
  = if IsLeaf c then [[seg_of c]] else map (cons (seg_of c)) (below c).
Proof. by destruct c. Qed.

Lemma Spec_spec_of chain : Spec chain = spec_of (map seg_of chain).
Proof. unfold Spec, spec_of. by rewrite !map_map. Qed.

Lemma Flatten_below t : ∀ ups,
  Flatten ups t
  = map (fun p => spec_of (rev p ++ map seg_of (t :: ups))) (below t).
Proof.
  induction t as [g i cs e IH] using TreeNode_ind'. intros ups.
  rewrite Flatten_eq. unfold below. cbn [Children].
  set (t := mkTreeNode g i cs e). clearbody t.
  induction IH as [|c cs Hc _ IHcs]; [done|].
  cbn [flat_map]. rewrite map_app, IHcs. f_equal.
  rewrite child_paths_eq. destruct (IsLeaf c).
  - by rewrite Spec_spec_of.
  - rewrite Hc, map_map. apply map_ext. intros p.
    cbn [rev map]. by rewrite <- app_assoc.
Qed.

Lemma Flatten_root t :
  Flatten [] t = map (fun p => spec_of (rev p)) (root_paths t).
Proof.
  rewrite Flatten_below. unfold root_paths. rewrite map_map.
  apply map_ext. intros p. done.
Qed.

(** ** Hydrating the lineages of a tree *)

Lemma ins_all_cons p ps t : ins_all (p :: ps) t = ins_all ps (ins p t).
Proof. done. Qed.

Lemma ins_all_app ps qs t : ins_all (ps ++ qs) t = ins_all qs (ins_all ps t).
Proof. apply fold_left_app. Qed.

Lemma prune_eq keep t :
  prune keep t
  = mkTreeNode (GVR t) (ID t)
      (prune_children (fun p => keep (seg_of t :: p)) (Children t))
      {[ StatusKey := status_of t ]}.
Proof. by destruct t. Qed.

Lemma new_child_level g p s : new_child g p s = level_node (g, p, s).
Proof.
  unfold new_child, assign, NewTreeNode, level_node.
  cbn [Children Extras seg_gvr seg_id seg_status fst snd].
  by rewrite insert_singleton_eq.
Qed.

Lemma status_of_level x : status_of (level_node x) = seg_status x.
Proof. unfold status_of, level_node. cbn [Extras]. by rewrite lookup_singleton_eq. Qed.

Lemma child_paths_tails c :
  child_paths c = map (cons (seg_of c)) (tails c).
Proof. rewrite child_paths_eq. unfold tails. by destruct (IsLeaf c). Qed.

Lemma filter_map_cons {A} (K : list A → bool) (x : A) (l : list (list A)) :
  List.filter K (map (cons x) l)
  = map (cons x) (List.filter (fun p => K (x :: p)) l).
Proof.
  induction l as [|p l IH]; [done|]. cbn [map List.filter].
  destruct (K (x :: p)); cbn [map]; by rewrite IH.
Qed.

Lemma existsb_filter_nil {A} (K : A → bool) (l : list A) :
  existsb K l = false ↔ List.filter K l = [].
Proof.
  induction l as [|x l IH]; [done|]. cbn. destruct (K x); cbn; [done|apply IH].
Qed.

Lemma Blank_pair a b : GVR a = GVR b → ID a = ID b → Blank a = Blank b.
Proof. unfold Blank. by intros -> ->. Qed.

Lemma alter_at_root f k v a :
  GVR (alter_at f (k :: v) a) = GVR a ∧ ID (alter_at f (k :: v) a) = ID a.
Proof. done. Qed.

Lemma ins_root segs : ∀ a,
  Blank a = false → GVR (ins segs a) = GVR a ∧ ID (ins segs a) = ID a.
Proof.
  induction segs as [|[[g p] s] rest IH]; intros a Hb; [done|].
  cbn [ins]. rewrite Hb. destruct (Find a g p) as [[|k v]|]; [|done..].
  cbn [alter_at]. by apply IH.
Qed.

Lemma ins_Blank segs a : Blank a = false → Blank (ins segs a) = false.
Proof.
  intros Hb. destruct (ins_root segs a Hb) as [Hg Hi].
  by rewrite (Blank_pair _ a).
Qed.

Lemma Find_Add x a :
  Find a (GVR x) (ID x) = None →
  Find (Add x a) (GVR x) (ID x) = Some [length (Children a)].
Proof.
  intros Hn. apply Find_None in Hn as [Hroot Hcs]. apply Find_child.
  split; [done|]. exists x. cbn [Add Children].
  split; [by rewrite lookup_app_r, Nat.sub_diag by lia|].
  do 2 (split; [done|]). by rewrite take_app_length.
Qed.

Lemma ins_first g p s r a :
  Blank a = false → Find a g p = None →
  ins ((g, p, s) :: r) a = Add (ins r (level_node (g, p, s))) a.
Proof. intros Hb Hf. cbn [ins]. by rewrite Hb, Hf, new_child_level. Qed.

Lemma ins_again g p s r x a :
  Blank a = false → Find a g p = None → GVR x = g → ID x = p →
  ins ((g, p, s) :: r) (Add x a) = Add (ins r x) a.
Proof.
  intros Hb Hf <- <-. cbn [ins].
  rewrite (Blank_pair (Add x a) a), Hb by done.
  rewrite (Find_Add _ _ Hf). apply alter_at_Add.
Qed.

Lemma ins_all_again g p s rs : ∀ x a,
  Blank a = false → Find a g p = None →
  Blank x = false → GVR x = g → ID x = p →
  ins_all (map (cons (g, p, s)) rs) (Add x a) = Add (ins_all rs x) a.
Proof.
  induction rs as [|r rs IH]; intros x a Hb Hf Hbx Hg Hi; [done|].
  cbn [map]. rewrite !ins_all_cons.
  rewrite ins_again by done.
  destruct (ins_root r x Hbx) as [Hg' Hi'].
  apply IH; [done|done|by apply ins_Blank|congruence|congruence].
Qed.

(** The lineages kept below one child [c], hydrated at the parent [a],
    which does not hold the child yet. *)
Lemma ins_all_child keep c a :
  Blank a = false → Find a (GVR c) (ID c) = None →
  IsLeaf c = true ∨ Blank c = false →
  ins_all (List.filter keep (child_paths c)) a
  = if existsb keep (child_paths c)
    then Add (ins_all (List.filter (fun p => keep (seg_of c :: p)) (tails c))
                      (level_node (seg_of c))) a
    else a.
Proof.
  intros Hb Hf Hbc.
  destruct (existsb keep (child_paths c)) eqn:He.
  - rewrite child_paths_tails, filter_map_cons in *.
    destruct (List.filter _ (tails c)) as [|r rs] eqn:Hrs.
    { exfalso. apply not_true_iff_false in He; [done|].
      apply existsb_filter_nil. by rewrite filter_map_cons, Hrs. }
    cbn [map]. rewrite !ins_all_cons.
    change (ins (seg_of c :: r) a)
      with (ins ((GVR c, ID c, status_of c) :: r) a).
    rewrite ins_first by done.
    destruct Hbc as [Hleaf|Hbc].
    { unfold tails in Hrs. rewrite Hleaf in Hrs. cbn [List.filter] in Hrs.
      destruct (keep [seg_of c]); [|done]. by injection Hrs as <- <-. }
    assert (Blank (level_node (seg_of c)) = false) as Hbl
      by (by rewrite (Blank_pair _ c)).
    destruct (ins_root r _ Hbl) as [Hg Hi].
    exact (ins_all_again (GVR c) (ID c) (status_of c) rs
             (ins r (level_node (seg_of c))) a Hb Hf
             (ins_Blank _ _ Hbl) Hg Hi).
  - apply existsb_filter_nil in He. by rewrite He.
Qed.

Lemma prune_children_app keep cs1 cs2 :
  prune_children keep (cs1 ++ cs2)
  = prune_children keep cs1 ++ prune_children keep cs2.
Proof. unfold prune_children. by rewrite flat_map_app. Qed.

Lemma prune_Find_None t gvr id : ∀ keep,
  Find t gvr id = None → Find (prune keep t) gvr id = None.
Proof.
  induction t as [g i cs e IH] using TreeNode_ind'. intros keep.
  rewrite prune_eq, !Find_None. cbn [GVR ID Children].
  intros [Hroot Hcs]. split; [done|].
  unfold prune_children. apply Forall_flat_map.
  rewrite Forall_forall in IH, Hcs. apply Forall_forall. intros c Hc.
  destruct (existsb _ (child_paths c)); [|constructor].
  constructor; [|constructor]. apply IH; [done|]. by apply Hcs.
Qed.

Lemma forallb_flat_map {A B} (f : B → bool) (g : A → list B) (l : list A) :
  forallb f (flat_map g l) = forallb (fun x => forallb f (g x)) l.
Proof.
  induction l as [|x l IH]; [done|]. cbn. by rewrite forallb_app, IH.
Qed.

Lemma forallb_Forall {A} (f : A → bool) (l : list A) :
  forallb f l = true ↔ Forall (fun x => f x = true) l.
Proof. rewrite forallb_forall, Forall_forall. by setoid_rewrite list_elem_of_In. Qed.

Lemma inner_named_eq t :
  inner_named t
  = (IsLeaf t || negb (Blank t)) && forallb inner_named (Children t).
Proof. unfold inner_named. by rewrite subtrees_eq, <- forallb_flat_map. Qed.

Lemma inner_named_Blank t :
  inner_named t = true → Children t ≠ [] → Blank t = false.
Proof.
  rewrite inner_named_eq. intros [H _]%andb_true_iff Hkids.
  apply orb_true_iff in H as [H|H]; [|by apply negb_true_iff].
  apply bool_decide_eq_true in H. by apply nil_length_inv in H.
Qed.

Lemma find_local_eq t :
  find_local t = found_first t && forallb find_local (Children t).
Proof. unfold find_local. by rewrite subtrees_eq, <- forallb_flat_map. Qed.

Lemma found_first_child t k c :
  found_first t = true → Children t !! k = Some c →
  Find t (GVR c) (ID c) = Some [k].
Proof.
  unfold found_first. rewrite forallb_forall. intros H Hc.
  specialize (H k). rewrite Hc in H.
  eapply bool_decide_eq_true_1, H.
  apply in_seq. apply lookup_lt_Some in Hc. lia.
Qed.

Lemma level_node_leaf g p s :
  mkTreeNode g p [] {[ StatusKey := s ]} = level_node (g, p, s).
Proof. done. Qed.

(** The lineages kept below a node, hydrated at a node that already holds
    what the first children [cs1] keep, add what the other children
    [cs2] keep. *)
Lemma ins_all_children t :
  inner_named t = true → find_local t = true →
  ∀ keep cs1 cs2 a,
    Children t = cs1 ++ cs2 → GVR a = GVR t → ID a = ID t →
    Children a = prune_children keep cs1 →
    ins_all (List.filter keep (flat_map child_paths cs2)) a
    = mkTreeNode (GVR a) (ID a) (Children a ++ prune_children keep cs2)
                 (Extras a).
Proof.
  induction t as [g i cs e IH] using TreeNode_ind'.
  intros Hnamed. pose proof (inner_named_Blank _ Hnamed) as Hbt.
  revert Hnamed. rewrite inner_named_eq, find_local_eq.
  cbn [Children GVR ID] in *.
  intros [_ Hbcs]%andb_true_iff [Hft Hfcs]%andb_true_iff.
  rewrite forallb_Forall in Hbcs, Hfcs.
  intros keep cs1 cs2. revert cs1.
  induction cs2 as [|c cs2 IHcs2]; intros cs1 a Hcs Hg Hi Ha.
  { cbn. rewrite app_nil_r. apply TreeNode_eta. }
  cbn [flat_map]. rewrite List.filter_app, ins_all_app.
  assert (c ∈ cs) as Hc by (rewrite Hcs; set_solver).
  rewrite Forall_forall in IH, Hbcs, Hfcs.
  pose proof (Hbcs c Hc) as Hbc. pose proof (Hfcs c Hc) as Hfc.
  assert (IsLeaf c = true ∨ Blank c = false) as Hbc0.
  { rewrite inner_named_eq in Hbc. apply andb_true_iff in Hbc as [Hbc _].
    apply orb_true_iff in Hbc as [?|?%negb_true_iff]; auto. }
  assert (Blank a = false) as Hba.
  { rewrite <- Hbt; [by apply Blank_pair|]. rewrite Hcs. by destruct cs1. }
  assert (Find a (GVR c) (ID c) = None) as Hfa.
  { pose proof (found_first_child (mkTreeNode g i cs e) (length cs1) c Hft) as H.
    cbn [Children] in H. rewrite Hcs in H.
    rewrite lookup_app_r, Nat.sub_diag in H by lia. specialize (H eq_refl).
    apply Find_child in H as [Hroot (c' & _ & _ & _ & Hnone)].
    cbn [GVR ID Children] in Hroot, Hnone. rewrite take_app_length in Hnone.
    apply Find_None. split; [by rewrite Hg, Hi|].
    rewrite Ha. unfold prune_children. apply Forall_flat_map.
    rewrite Forall_forall in Hnone. apply Forall_forall. intros c1 Hc1.
    destruct (existsb keep (child_paths c1)); [|constructor].
    constructor; [|constructor]. by apply prune_Find_None, Hnone. }
  rewrite (ins_all_child keep c a Hba Hfa Hbc0).
  assert (ins_all (List.filter (fun p => keep (seg_of c :: p)) (tails c))
                  (level_node (seg_of c)) = prune keep c) as Hbuild.
  { rewrite prune_eq. unfold tails, IsLeaf.
    case_bool_decide as Hleaf.
    - apply nil_length_inv in Hleaf. rewrite Hleaf.
      cbn [List.filter]. by destruct (keep [seg_of c]).
    - unfold below.
      rewrite (IH c Hc Hbc Hfc (fun p => keep (seg_of c :: p)) []
                 (Children c) (level_node (seg_of c))) by done.
      cbn [level_node GVR ID Children Extras app seg_gvr seg_id seg_status
           seg_of fst snd]. done. }
  rewrite Hbuild.
  set (a1 := if existsb keep (child_paths c) then Add (prune keep c) a else a).
  assert (GVR a1 = GVR a ∧ ID a1 = ID a ∧ Extras a1 = Extras a
          ∧ Children a1 = Children a ++ prune_children keep [c])
    as (Hg1 & Hi1 & He1 & Hc1).
  { unfold a1, prune_children. cbn [flat_map].
    destruct (existsb keep (child_paths c)); cbn [Add GVR ID Extras Children].
    - done.
    - by rewrite !app_nil_r. }
  rewrite (IHcs2 (cs1 ++ [c]) a1).
  - rewrite Hg1, Hi1, He1, Hc1. f_equal.
    rewrite <- app_assoc. f_equal.
    change (c :: cs2) with ([c] ++ cs2). by rewrite prune_children_app.
  - by rewrite <- app_assoc.
  - congruence.
  - congruence.
  - by rewrite Hc1, Ha, prune_children_app.
Qed.

Lemma ins_all_same_root x rs : ∀ r,
  Blank r = false → GVR r = seg_gvr x → ID r = seg_id x →
  ins_all (map (cons x) rs) r = ins_all rs r.
Proof.
  induction rs as [|p rs IH]; intros r Hb Hg Hi; [done|].
  cbn [map]. rewrite !ins_all_cons.
  assert (ins (x :: p) r = ins p r) as ->.
  { destruct x as [[g q] s]. cbn [ins seg_gvr seg_id fst snd] in *.
    rewrite Hb. by rewrite (proj2 (Find_root r g q)). }
  destruct (ins_root p r Hb) as [Hg' Hi'].
  apply IH; [by apply ins_Blank | congruence | congruence].
Qed.

(** Hydrating the kept lineages of a tree, from the blank root on. *)
Lemma ins_all_root t keep :
  inner_named t = true → find_local t = true →
  List.filter keep (root_paths t) ≠ [] →
  ins_all (List.filter keep (root_paths t)) (NewTreeNode "" "")
  = prune keep t.
Proof.
  intros Hb Hf Hne. unfold root_paths in *. rewrite filter_map_cons in *.
  destruct (List.filter _ (below t)) as [|r rs] eqn:Hrs; [done|].
  assert (Blank t = false) as Hbt.
  { apply inner_named_Blank; [done|]. intros Hkids.
    unfold below in Hrs. by rewrite Hkids in Hrs. }
  cbn [map]. rewrite ins_all_cons.
  assert (ins (seg_of t :: r) (NewTreeNode "" "")
          = ins r (level_node (seg_of t))) as ->.
  { cbn [ins seg_of]. change (Blank (NewTreeNode "" "")) with true.
    cbn iota.
    change (assign (GVR t) (ID t) (status_of t) (NewTreeNode "" ""))
      with (new_child (GVR t) (ID t) (status_of t)).
    by rewrite new_child_level. }
  assert (Blank (level_node (seg_of t)) = false) as Hbl
    by (by rewrite (Blank_pair _ t)).
  destruct (ins_root r _ Hbl) as [Hg Hi].
  rewrite ins_all_same_root by (by apply ins_Blank || done).
  rewrite <- ins_all_cons, <- Hrs. unfold below.
  rewrite (ins_all_children t Hb Hf (fun p => keep (seg_of t :: p)) []
             (Children t) (level_node (seg_of t))) by done.
  by rewrite prune_eq.
Qed.

Lemma seg_of_prune keep t : seg_of (prune keep t) = seg_of t.
Proof.
  rewrite prune_eq. unfold seg_of, status_of. cbn [GVR ID Extras].
  by rewrite lookup_singleton_eq.
Qed.


Lemma child_paths_nonempty c : child_paths c ≠ [].
Proof.
  induction c as [g i cs e IH] using TreeNode_ind'.
  rewrite child_paths_eq. unfold IsLeaf, below. cbn [Children].
  case_bool_decide as Hleaf; [done|].
  destruct IH as [|c cs Hc _]; [done|]. cbn [flat_map].
  destruct (child_paths c); [done|]. done.
Qed.

Lemma flat_map_ext_in {A B} (f g : A → list B) (l : list A) :
  (∀ x, x ∈ l → f x = g x) → flat_map f l = flat_map g l.
Proof.
  intros H. induction l as [|x l IH]; [done|]. cbn.
  rewrite H by set_solver. rewrite IH; [done|]. intros y Hy. apply H. set_solver.
Qed.

Lemma filter_flat_map {A B} (K : B → bool) (f : A → list B) (l : list A) :
  List.filter K (flat_map f l) = flat_map (fun x => List.filter K (f x)) l.
Proof.
  induction l as [|x l IH]; [done|]. cbn. by rewrite List.filter_app, IH.
Qed.

Lemma flat_map_flat_map {A B C} (f : A → list B) (g : B → list C) (l : list A) :
  flat_map g (flat_map f l) = flat_map (fun x => flat_map g (f x)) l.
Proof.
  induction l as [|x l IH]; [done|]. cbn. by rewrite flat_map_app, IH.
Qed.

(** The leaves of the pruned tree are the kept leaves, with their
    lineages. *)
Lemma below_prune t : ∀ keep,
  below (prune keep t)
  = List.filter (fun p => keep (seg_of t :: p)) (below t).
Proof.
  induction t as [g i cs e IH] using TreeNode_ind'. intros keep.
  rewrite prune_eq. unfold below at 1 2. cbn [Children].
  set (K := fun p => keep (seg_of (mkTreeNode g i cs e) :: p)). clearbody K.
  unfold prune_children. rewrite flat_map_flat_map, filter_flat_map.
  apply flat_map_ext_in. intros c Hc.
  rewrite Forall_forall in IH. specialize (IH c Hc).
  destruct (existsb K (child_paths c)) eqn:He.
  2:{ apply existsb_filter_nil in He. by rewrite He. }
  cbn [flat_map]. rewrite app_nil_r.
  rewrite (child_paths_eq (prune K c)), seg_of_prune.
  rewrite (child_paths_eq c) in *. unfold IsLeaf in *.
  case_bool_decide as Hleaf.
  - apply nil_length_inv in Hleaf. rewrite prune_eq, Hleaf.
    cbn [Children prune_children flat_map length].
    rewrite bool_decide_eq_true_2 by done.
    cbn [existsb List.filter] in *. by destruct (K [seg_of c]).
  - rewrite filter_map_cons, <- IH.
    case_bool_decide as Hleaf'; [|done].
    exfalso. apply not_false_iff_true in He. apply He.
    apply existsb_filter_nil. rewrite filter_map_cons, <- IH.
    apply nil_length_inv in Hleaf'. unfold below. by rewrite Hleaf'.
Qed.

Lemma root_paths_prune t keep :
  root_paths (prune keep t) = List.filter keep (root_paths t).
Proof.
  unfold root_paths. by rewrite seg_of_prune, below_prune, filter_map_cons.
Qed.

Lemma filter_idem {A} (K : A → bool) (l : list A) :
  List.filter K (List.filter K l) = List.filter K l.
Proof.
  induction l as [|x l IH]; [done|]. cbn. destruct (K x) eqn:Hx; [|done].
  cbn. by rewrite Hx, IH.
Qed.

Lemma filter_true {A} (l : list A) : List.filter (fun _ => true) l = l.
Proof. induction l as [|x l IH]; [done|]. cbn. by rewrite IH. Qed.

Lemma status_only_eq t :
  status_only t
  ↔ Extras t = {[ StatusKey := status_of t ]}
    ∧ Forall status_only (Children t).
Proof.
  unfold status_only. rewrite subtrees_eq, Forall_cons, Forall_flat_map. done.
Qed.

Lemma prune_true t :
  status_only t → prune (fun _ => true) t = t.
Proof.
  induction t as [g i cs e IH] using TreeNode_ind'.
  rewrite status_only_eq. cbn [Extras Children]. intros [He Hcs].
  rewrite prune_eq. cbn [GVR ID Children]. rewrite <- He. f_equal.
  unfold prune_children.
  induction IH as [|c cs Hc _ IHcs]; [done|].
  apply Forall_cons_1 in Hcs as [Hsc Hcs]. cbn [flat_map].
  assert (existsb (fun _ => true) (child_paths c) = true) as ->.
  { pose proof (child_paths_nonempty c). by destruct (child_paths c). }
  cbn [app]. f_equal; [by apply Hc | by apply IHcs].
Qed.

(** ** What Hydrate builds carries statuses only *)

Lemma status_only_alter_at f nav : ∀ t,
  status_only t → (∀ n, status_only n → status_only (f n)) →
  status_only (alter_at f nav t).
Proof.
  induction nav as [|k nav IH]; intros t Ht Hf; [by apply Hf|].
  cbn [alter_at]. apply status_only_eq in Ht as [He Hcs].
  apply status_only_eq. cbn [Extras Children]. split; [done|].
  apply Forall_alter; [done|]. intros c _ Hc. by apply IH.
Qed.

Lemma status_only_assign g p s n : status_only n → status_only (assign g p s n).
Proof.
  rewrite !status_only_eq. intros [He Hcs]. split; [|done].
  unfold assign, status_of. cbn [Extras].
  rewrite lookup_insert_eq. cbn [default]. rewrite He.
  by rewrite insert_singleton_eq.
Qed.

Lemma status_only_new_child g p s : status_only (new_child g p s).
Proof.
  apply status_only_assign, status_only_eq. split; [|constructor].
  unfold NewTreeNode, status_of. cbn [Extras]. by rewrite lookup_singleton_eq.
Qed.

Lemma status_only_Add c n : status_only c → status_only n → status_only (Add c n).
Proof.
  rewrite !(status_only_eq n), (status_only_eq (Add c n)).
  intros Hc [He Hcs]. split; [done|]. cbn [Add Children].
  apply Forall_app. split; [done|]. by constructor.
Qed.

Lemma status_only_step st g p s :
  status_only st.1 → status_only (hydrate_step st g p s).1.
Proof.
  destruct st as [root nav]. cbn [fst]. intros H. unfold hydrate_step.
  destruct (subtree root nav) as [n|]; [|done].
  destruct (Blank n).
  - cbn [fst]. apply status_only_alter_at; [done|].
    intros m. apply status_only_assign.
  - destruct (Find n g p); [done|]. cbn [fst].
    apply status_only_alter_at; [done|].
    intros m. apply status_only_Add, status_only_new_child.
Qed.

Section Invariant.
Variable P : TreeNode → Prop.
Hypothesis P_step : ∀ st g p s, P st.1 → P (hydrate_step st g p s).1.

Lemma hydrate_loop_invariant gvrs paths statuses k : ∀ st st',
  P st.1 → hydrate_loop gvrs paths statuses k st = Ok st' → P st'.1.
Proof.
  induction k as [|i IH]; intros st st' H; [by intros [= <-]|].
  cbn [hydrate_loop].
  destruct (index gvrs i) as [g|]; [|done].
  destruct (index paths i) as [p|]; [|done].
  destruct (index statuses i) as [s|]; [|done]. cbn [obind].
  apply IH. by apply P_step.
Qed.

Lemma hydrate_refs_invariant refs : ∀ root t,
  P root → hydrate_refs root refs = Ok t → P t.
Proof.
  induction refs as [|ref refs IH]; intros root t H; [by intros [= <-]|].
  cbn [hydrate_refs]. unfold hydrate_ref.
  destruct (hydrate_loop _ _ _ _ (root, [])) as [st|] eqn:Hl; [|done].
  cbn [obind]. apply IH.
  by apply (hydrate_loop_invariant _ _ _ _ (root, []) st H Hl).
Qed.
End Invariant.

Lemma Hydrate_status_only refs t : Hydrate refs = Ok t → status_only t.
Proof.
  apply (hydrate_refs_invariant status_only status_only_step).
  apply status_only_eq. split; [|constructor].
  unfold NewTreeNode, status_of. cbn [Extras]. by rewrite lookup_singleton_eq.
Qed.

(** ** In what Hydrate builds, a node with children is not blank *)

Lemma inner_named_subtree nav : ∀ t n,
  inner_named t = true → subtree t nav = Some n → inner_named n = true.
Proof.
  induction nav as [|k nav IH]; intros t n Ht; [by intros [= <-]|].
  cbn [subtree]. destruct (Children t !! k) as [c|] eqn:Hc; [|done].
  apply IH. rewrite inner_named_eq in Ht.
  apply andb_true_iff in Ht as [_ Ht]. rewrite forallb_Forall in Ht.
  rewrite Forall_forall in Ht. apply Ht. by eapply list_elem_of_lookup_2.
Qed.

Lemma inner_named_alter_at f nav : ∀ t n,
  inner_named t = true → subtree t nav = Some n →
  inner_named (f n) = true → inner_named (alter_at f nav t) = true.
Proof.
  induction nav as [|k nav IH]; intros t n Ht; [by intros [= <-]|].
  cbn [subtree alter_at]. destruct (Children t !! k) as [c|] eqn:Hc; [|done].
  intros Hn Hf. rewrite inner_named_eq in Ht |- *.
  apply andb_true_iff in Ht as [Ht Hcs]. apply andb_true_iff.
  unfold IsLeaf, Blank in *. cbn [GVR ID Children]. rewrite length_alter.
  split; [done|]. rewrite forallb_Forall in Hcs |- *.
  apply Forall_alter; [done|]. intros c' Hc' Hnamed.
  rewrite Hc in Hc'. injection Hc' as <-. by apply (IH c n).
Qed.

Lemma inner_named_step st g p s :
  inner_named st.1 = true → inner_named (hydrate_step st g p s).1 = true.
Proof.
  destruct st as [root nav]. cbn [fst]. intros H. unfold hydrate_step.
  destruct (subtree root nav) as [n|] eqn:Hn; [|done].
  pose proof (inner_named_subtree _ _ _ H Hn) as Hnamed.
  rewrite inner_named_eq in Hnamed.
  apply andb_true_iff in Hnamed as [Hroot Hcs].
  destruct (Blank n) eqn:Hb.
  - cbn [fst]. apply (inner_named_alter_at _ _ _ n); [done..|].
    rewrite orb_false_r in Hroot. rewrite inner_named_eq.
    unfold IsLeaf in *. cbn [assign Children]. by rewrite Hroot, Hcs.
  - destruct (Find n g p); [done|]. cbn [fst].
    apply (inner_named_alter_at _ _ _ n); [done..|].
    rewrite inner_named_eq. rewrite (Blank_pair (Add _ n) n), Hb by done.
    rewrite orb_true_r. cbn [Add Children andb].
    by rewrite forallb_app, Hcs.
Qed.

Lemma Hydrate_inner_named refs t : Hydrate refs = Ok t → inner_named t = true.
Proof.
  by apply (hydrate_refs_invariant (fun t => inner_named t = true)
              inner_named_step).
Qed.

(** ** Lineages without colons split back *)

Lemma append_cons a s t : String a s +:+ t = String a (s +:+ t).
Proof. done. Qed.

Lemma append_assoc_cons cur c x :
  (cur +:+ String c "") +:+ x = cur +:+ String c x.
Proof.
  induction cur as [|a cur IH]; [done|]. by rewrite !append_cons, IH.
Qed.

Lemma append_empty_r s : s +:+ "" = s.
Proof. induction s as [|a s IH]; [done|]. by rewrite append_cons, IH. Qed.

Lemma split_scan_free x : ∀ cur s,
  colon_free x = true →
  split_scan PathSeparator 0 cur (x +:+ s)
  = split_scan PathSeparator 0 (cur +:+ x) s.
Proof.
  induction x as [|c x IH]; intros cur s Hx.
  - by rewrite append_empty_r.
  - cbn [colon_free] in Hx. apply andb_true_iff in Hx as [Hc Hx].
    apply negb_true_iff, Ascii.eqb_neq in Hc.
    rewrite append_cons.
    cbn [split_scan]. unfold PathSeparator at 1. cbn [String.prefix].
    destruct (ascii_dec ":" c) as [<-|_]; [done|].
    rewrite IH by done. by rewrite append_assoc_cons.
Qed.

Lemma split_scan_sep cur s :
  split_scan PathSeparator 0 cur (PathSeparator +:+ s)
  = cur :: split_scan PathSeparator 0 "" s.
Proof.
  unfold PathSeparator. rewrite !append_cons.
  cbn [split_scan String.prefix String.length Nat.sub].
  destruct (ascii_dec ":" ":") as [_|H]; [|done].
  by destruct s.
Qed.

Lemma Split_Join_free (xs : list string) :
  xs ≠ [] → forallb colon_free xs = true →
  strings_Split (strings_Join xs PathSeparator) PathSeparator = xs.
Proof.
  unfold strings_Split. induction xs as [|e xs IH]; [done|]. intros _ H.
  cbn [forallb] in H. apply andb_true_iff in H as [He Hxs].
  destruct xs as [|e' xs].
  - cbn [strings_Join]. rewrite <- (append_empty_r e) at 1.
    by rewrite split_scan_free.
  - change (strings_Join (e :: e' :: xs) PathSeparator)
      with (e +:+ PathSeparator +:+ strings_Join (e' :: xs) PathSeparator).
    rewrite split_scan_free by done.
    rewrite split_scan_sep. f_equal. by apply IH.
Qed.

Lemma splits_back_plain (L : list seg) :
  L ≠ [] → forallb seg_plain L = true → splits_back L = true.
Proof.
  intros Hne H. apply bool_decide_eq_true. unfold spec_of.
  cbn [specGVR specPath specStatus].
  assert (∀ f : seg → string,
            (∀ x, seg_plain x = true → colon_free (f x) = true) →
            forallb colon_free (map f L) = true) as Hf.
  { intros f Hfp. rewrite forallb_forall in *. intros s Hs.
    apply in_map_iff in Hs as (x & <- & Hx). apply Hfp, H, Hx. }
  assert (∀ f : seg → string, map f L ≠ []) as Hne'
    by (intros f; by destruct L).
  unfold seg_plain in Hf.
  repeat split; apply Split_Join_free; try apply Hne'; apply Hf; intros x;
    rewrite !andb_true_iff; tauto.
Qed.

Lemma plain_eq t :
  plain t = seg_plain (seg_of t) && forallb plain (Children t).
Proof. unfold plain. by rewrite subtrees_eq, <- forallb_flat_map. Qed.

Lemma child_paths_plain c :
  plain c = true →
  Forall (fun p => forallb seg_plain p = true) (child_paths c).
Proof.
  induction c as [g i cs e IH] using TreeNode_ind'.
  rewrite plain_eq, child_paths_eq. cbn [Children].
  intros [Hc Hcs]%andb_true_iff. destruct (IsLeaf _).
  { constructor; [|constructor]. cbn. by rewrite Hc. }
  apply Forall_map. unfold below. cbn [Children].
  apply Forall_flat_map. rewrite forallb_Forall in Hcs.
  rewrite Forall_forall in IH, Hcs. apply Forall_forall. intros c Hin.
  specialize (IH c Hin (Hcs c Hin)).
  eapply Forall_impl; [exact IH|]. intros p Hp. cbn. by rewrite Hc.
Qed.

(** When no type, identity or status of a tree contains a colon, every
    leaf lineage splits back into its levels. *)
Lemma plain_codec_ok t : plain t = true → codec_ok t = true.
Proof.
  rewrite plain_eq. intros [Ht Hcs]%andb_true_iff.
  unfold codec_ok, root_paths, below. rewrite forallb_Forall.
  apply Forall_map, Forall_flat_map.
  rewrite forallb_Forall in Hcs. rewrite Forall_forall in Hcs.
  apply Forall_forall. intros c Hc.
  eapply Forall_impl; [exact (child_paths_plain c (Hcs c Hc))|].
  intros p Hp. apply splits_back_plain.
  - cbn [rev]. by destruct (rev p).
  - cbn [rev]. rewrite forallb_app. apply andb_true_iff. split.
    + rewrite forallb_forall in *. intros x Hx. apply Hp. by apply in_rev.
    + cbn. by rewrite Ht.
Qed.

(** ** Hydrate after Flatten, and Filter twice *)

Lemma Hydrate_kept t keep :
  inner_named t = true → find_local t = true → codec_ok t = true →
  List.filter keep (root_paths t) ≠ [] →
  Hydrate (map (fun p => spec_of (rev p)) (List.filter keep (root_paths t)))
  = Ok (prune keep t).
Proof.
  intros Hb Hf Hc Hne. unfold Hydrate. rewrite hydrate_refs_ins.
  - f_equal. by apply ins_all_root.
  - unfold codec_ok in Hc. rewrite forallb_forall in *.
    intros p Hp. apply Hc. by apply filter_In in Hp as [Hp _].
Qed.

Lemma filter_map_comm {A B} (K : B → bool) (f : A → B) (l : list A) :
  List.filter K (map f l) = map f (List.filter (fun x => K (f x)) l).
Proof.
  induction l as [|x l IH]; [done|]. cbn. destruct (K (f x)); cbn; by rewrite IH.
Qed.

(** C3, as the code has it.  Let T be a tree Hydrate returned.  If the
    root of T has a child, every child in T is the first node Find
    reaches from its parent for the child's type and identity, and every
    leaf lineage of T splits back into its levels, then hydrating the
    flattened T gives T again, and so, after Sort on both sides, Diff
    answers "not different". *)
Theorem Hydrate_Flatten_round_trip
    (sort_Sort : list TreeNode → list TreeNode)
    (S : list NodeSpec) (T : TreeNode) :
  Hydrate S = Ok T →
  Children T ≠ [] →
  find_local T = true → codec_ok T = true →
  ∃ T', Hydrate (Flatten [] T) = Ok T'
        ∧ T' = T
        ∧ Diff (Some (Sort sort_Sort T')) (Some (Sort sort_Sort T)) = Ok false.
Proof.
  intros HT Hkids Hf Hc. exists T.
  pose proof (Hydrate_inner_named S T HT) as Hb.
  split; [|split; [done | apply Diff_refl]].
  rewrite Flatten_root, <- (filter_true (root_paths T)).
  rewrite Hydrate_kept; try done.
  - f_equal. apply prune_true. by apply (Hydrate_status_only S).
  - rewrite filter_true. unfold root_paths, below.
    destruct (Children T) as [|c cs]; [done|]. cbn [flat_map].
    pose proof (child_paths_nonempty c). by destruct (child_paths c).
Qed.

(** C6, as the code has it.  Let no node of T that has children be
    blank, every child in T be the first node Find reaches from its
    parent for the child's type and identity, and every leaf lineage of
    T split back into its levels.  Then Filter on T does not panic, and when it answers a tree,
    Filter on that tree with the same query answers the same tree: Diff
    of the two answers "not different". *)
Theorem Filter_idempotent (T : TreeNode) (q : string)
    (matches : string → string → bool) :
  inner_named T = true → find_local T = true → codec_ok T = true →
  match Filter [] (Some T) q matches with
  | Ok None => True
  | Ok (Some T1) =>
      ∃ T2, Filter [] (Some T1) q matches = Ok (Some T2)
            ∧ Diff (Some T2) (Some T1) = Ok false
  | Panic _ => False
  end.
Proof.
  intros Hb Hf Hc.
  set (keep := fun p : list seg => matches q (haystack (spec_of (rev p)))).
  assert (∀ t, List.filter (fun s => matches q (specPath s +:+ specStatus s))
                           (Flatten [] t)
               = map (fun p => spec_of (rev p)) (List.filter keep (root_paths t)))
    as Hflat.
  { intros t. by rewrite Flatten_root, filter_map_comm. }
  unfold Filter at 1. rewrite Hflat, length_map.
  case_bool_decide as Hlen; [done|].
  assert (List.filter keep (root_paths T) ≠ []) as Hne
    by (intros H; by rewrite H in Hlen).
  rewrite Hydrate_kept by done. cbn [obind].
  exists (prune keep T). split; [|apply Diff_refl].
  unfold Filter. rewrite Hflat, root_paths_prune, filter_idem, length_map.
  rewrite bool_decide_eq_false_2 by done.
  by rewrite Hydrate_kept.
Qed.

Lemma Hydrate_Flatten_round_trip_witness :
  Hydrate scenario_specs = Ok scenario
  ∧ Children scenario ≠ []
  ∧ find_local scenario = true ∧ codec_ok scenario = true
  ∧ ∃ T', Hydrate (Flatten [] scenario) = Ok T'
          ∧ T' = scenario
          ∧ Diff (Some (Sort insertion_sort T'))
                 (Some (Sort insertion_sort scenario)) = Ok false.
Proof.
  assert (Hydrate scenario_specs = Ok scenario) as H1
    by (vm_compute; reflexivity).
  assert (Children scenario ≠ []) as H2 by discriminate.
  assert (find_local scenario = true) as H3 by (vm_compute; reflexivity).
  assert (codec_ok scenario = true) as H4 by (vm_compute; reflexivity).
  do 4 (split; [assumption|]).
  exact (Hydrate_Flatten_round_trip insertion_sort scenario_specs scenario
           H1 H2 H3 H4).
Defined.

(** A valid spec of one level hydrates to a root without children;
    Flatten walks the children only and yields nothing for it, and
    hydrating nothing gives the blank root. *)
Lemma round_trip_counterexample :
  let S := [mkNodeSpec "v1/pods" "default/foo" "ok"] in
  let T := mkTreeNode "v1/pods" "default/foo" [] {[ StatusKey := "ok" ]} in
  Forall (fun ref => ¬ malformed ref) S
  ∧ Hydrate S = Ok T
  ∧ Flatten [] T = []
  ∧ Hydrate (Flatten [] T) = Ok (NewTreeNode "" "")
  ∧ Diff (Some (Sort insertion_sort (NewTreeNode "" "")))
         (Some (Sort insertion_sort T)) = Ok true.
Proof.
  cbv zeta. split.
  { constructor; [|constructor]. intros H. apply H. vm_compute. done. }
  repeat split; vm_compute; reflexivity.
Qed.

(** The round trip also fails when a child is not the first node Find
    reaches from its parent: the pod under the namespace is looked up
    from the namespace and found under the deployment. *)
Lemma round_trip_needs_first_found :
  let S := [mkNodeSpec "deployments::namespaces" "foo::default" "ok::ok";
            mkNodeSpec "pods::namespaces" "bar::default" "ok::ok";
            mkNodeSpec "pods::deployments::namespaces" "bar::foo::default"
                       "ok::ok::ok"] in
  let pod := mkTreeNode "pods" "bar" [] {[ StatusKey := "ok" ]} in
  let dep := mkTreeNode "deployments" "foo" [pod] {[ StatusKey := "ok" ]} in
  let T := mkTreeNode "namespaces" "default" [dep; pod] {[ StatusKey := "ok" ]} in
  let T' := mkTreeNode "namespaces" "default" [dep] {[ StatusKey := "ok" ]} in
  Hydrate S = Ok T ∧ find_local T = false ∧ codec_ok T = true
  ∧ Hydrate (Flatten [] T) = Ok T'
  ∧ Diff (Some (Sort insertion_sort T')) (Some (Sort insertion_sort T))
    = Ok true.
Proof. cbv zeta. repeat split; vm_compute; reflexivity. Qed.

(** And when a lineage does not split back: an identity that ends with
    a colon, met as the root-most level of a second spec, ends up below
    the root, and its lineage is cut one character too early. *)
Lemma round_trip_needs_split_back :
  let S := [mkNodeSpec "pods::namespaces" "foo::default" "ok::ok";
            mkNodeSpec "pods::namespaces" "bar::kube:" "ok::ok"] in
  let T := mkTreeNode "namespaces" "default"
             [mkTreeNode "pods" "foo" [] {[ StatusKey := "ok" ]};
              mkTreeNode "namespaces" "kube:"
                [mkTreeNode "pods" "bar" [] {[ StatusKey := "ok" ]}]
                {[ StatusKey := "ok" ]}]
             {[ StatusKey := "ok" ]} in
  Hydrate S = Ok T ∧ find_local T = true ∧ codec_ok T = false
  ∧ ∃ T', Hydrate (Flatten [] T) = Ok T'
          ∧ Diff (Some (Sort insertion_sort T')) (Some (Sort insertion_sort T))
            = Ok true.
Proof.
  cbv zeta. split; [vm_compute; reflexivity|].
  split; [vm_compute; reflexivity|]. split; [vm_compute; reflexivity|].
  eexists. split; vm_compute; reflexivity.
Qed.

Lemma Filter_idempotent_witness :
  inner_named scenario = true ∧ find_local scenario = true
  ∧ codec_ok scenario = true
  ∧ match Filter [] (Some scenario) "foo-2" starts_with with
    | Ok None => True
    | Ok (Some T1) =>
        ∃ T2, Filter [] (Some T1) "foo-2" starts_with = Ok (Some T2)
              ∧ Diff (Some T2) (Some T1) = Ok false
    | Panic _ => False
    end.
Proof.
  assert (inner_named scenario = true) as H1 by (vm_compute; reflexivity).
  assert (find_local scenario = true) as H2 by (vm_compute; reflexivity).
  assert (codec_ok scenario = true) as H3 by (vm_compute; reflexivity).
  do 3 (split; [assumption|]).
  exact (Filter_idempotent scenario "foo-2" starts_with H1 H2 H3).
Defined.

(** A tree under the blank root sentinel, with one pod: the first Filter
    puts the pod on the blank cursor, twice over, and answers the pod
    alone; the second Filter finds no child to flatten and answers nil.
    And Filter on the nil answer of a Filter is a nil dereference. *)
Lemma Filter_twice_counterexample :
  let any := fun _ _ : string => true in
  let none := fun _ _ : string => false in
  let T := Add (NewTreeNode "v1/pods" "default/foo") (NewTreeNode "" "") in
  let pod := mkTreeNode "v1/pods" "default/foo" [] {[ StatusKey := "ok" ]} in
  Filter [] (Some T) "" any = Ok (Some pod)
  ∧ Filter [] (Some pod) "" any = Ok None
  ∧ Diff None (Some pod) = Ok true
  ∧ Filter [] (Some T) "" none = Ok None
  ∧ Filter [] None "" none = Panic NilDereference.
Proof. cbv zeta. repeat split; vm_compute; reflexivity. Qed.

(** * Further properties *)

(** ** Diff on present nodes *)

Lemma Diff_Some_Some x y : Diff (Some x) (Some y) = Ok (Diff_present x y).
Proof.
  unfold Diff. cbn [CountChildren obind].
  case_bool_decide as Hlen; [done|]. cbn [negb].
  destruct x as [xg xi xcs xe], y as [yg yi ycs ye].
  cbn [Diff_present Children] in *.
  by rewrite bool_decide_eq_false_2.
Qed.

Lemma Diff_present_true (a b : TreeNode) :
  a ≠ b → Diff (Some a) (Some b) = Ok true.
Proof.
  intros Hne. rewrite Diff_Some_Some. f_equal.
  destruct (Diff_present a b) eqn:H; [done|]. by apply Diff_present_spec in H.
Qed.

(** X1.  On two present nodes Diff does not panic, and it answers "not
    different" exactly when the two trees are the same: same type,
    identity and attributes at the root, and the same children at the
    same places, all the way down.  It does not depend on the order of
    its operands. *)
Theorem Diff_present_operands (a b : TreeNode) :
  (∃ r, Diff (Some a) (Some b) = Ok r)
  ∧ (Diff (Some a) (Some b) = Ok false ↔ a = b)
  ∧ Diff (Some a) (Some b) = Diff (Some b) (Some a).
Proof.
  rewrite !Diff_Some_Some. split; [by eexists|]. split.
  - split; [intros [= Hd]; by apply Diff_present_spec|].
    intros ->. by rewrite Diff_present_refl.
  - f_equal. destruct (Diff_present a b) eqn:Hab, (Diff_present b a) eqn:Hba;
      try done.
    + apply Diff_present_spec in Hba as ->.
      by rewrite Diff_present_refl in Hab.
    + apply Diff_present_spec in Hab as ->.
      by rewrite Diff_present_refl in Hba.
Qed.

(** X2.  A ShallowClone is different from its source exactly when the
    source has children: the clone has the type, identity and attributes
    of the source and no child. *)
Theorem ShallowClone_Diff (t : TreeNode) :
  Diff (Some t) (Some (ShallowClone t)) = Ok (negb (IsLeaf t)).
Proof.
  unfold ShallowClone, IsLeaf. destruct t as [g i cs e].
  cbn [GVR ID Children Extras]. destruct cs as [|c cs].
  - apply Diff_refl.
  - by apply Diff_present_true.
Qed.

(** ** Find *)

(** X3.  Find answers nil exactly when no node of the tree has the type
    and the identity asked for; otherwise it answers the first such node
    in depth-first order, the receiver first. *)
Theorem Find_first_match (t : TreeNode) (gvr id : string) :
  (Find t gvr id = None
   ↔ Forall (fun n => is_match gvr id n = false) (subtrees t))
  ∧ (∀ v, Find t gvr id = Some v →
       ∃ n rest, subtree t v = Some n
                 ∧ List.filter (is_match gvr id) (subtrees t) = n :: rest).
Proof.
  split; [apply Find_None_subtrees|].
  pose proof (Find_head t gvr id) as H.
  intros v Hv. rewrite Hv in H. cbn in H.
  destruct (Find_found _ _ _ _ Hv) as (m & Hm & _). rewrite Hm in H.
  exists m. destruct (List.filter _ _) as [|x rest]; [done|].
  exists rest. split; [done|]. by injection H as ->.
Qed.

Lemma Find_first_match_witness :
  Find scenario "pods" "foo-2" = Some [0; 1]
  ∧ ∃ n rest, subtree scenario [0; 1] = Some n
      ∧ List.filter (is_match "pods" "foo-2") (subtrees scenario) = n :: rest.
Proof.
  assert (Find scenario "pods" "foo-2" = Some [0; 1]) as H
    by (vm_compute; reflexivity).
  split; [exact H|].
  exact (proj2 (Find_first_match scenario "pods" "foo-2") [0; 1] H).
Defined.

Lemma first_child_app {A} (f : TreeNode → option A) (l1 l2 : list TreeNode) :
  ∀ k0,
  first_child f k0 (l1 ++ l2)
  = match first_child f k0 l1 with
    | Some r => Some r
    | None => first_child f (k0 + length l1) l2
    end.
Proof.
  induction l1 as [|c l1 IH]; intros k0; cbn [first_child app length].
  - by rewrite Nat.add_0_r.
  - destruct (f c); [done|]. rewrite IH. by rewrite Nat.add_succ_r.
Qed.

(** X4.  Find after Add: a node that Find reached before is still the
    answer, whatever was added; otherwise the answer is what Find
    reaches in the added child, behind the index of the new child. *)
Theorem Find_after_Add (t c : TreeNode) (gvr id : string) :
  Find (Add c t) gvr id
  = match Find t gvr id with
    | Some v => Some v
    | None => cons (length (Children t)) <$> Find c gvr id
    end.
Proof.
  rewrite (Find_eq (Add c t)), (Find_eq t). cbn [Add GVR ID Children].
  destruct (bool_decide (GVR t = gvr) && bool_decide (ID t = id)); [done|].
  rewrite first_child_app. cbn [first_child].
  destruct (first_child _ 0 (Children t)) as [[k v]|]; [done|].
  by destruct (Find c gvr id).
Qed.

(** ** Count *)

(** X5.  When Count finds no node of a type, Find answers nil for this
    type, whatever the identity. *)
Theorem Count_zero_Find (t : TreeNode) (gvr id : string) :
  Count t gvr = 0 → Find t gvr id = None.
Proof.
  rewrite Count_counted. intros H0.
  destruct (Find t gvr id) as [v|] eqn:Hv; [|done].
  apply Find_found in Hv as (m & Hm & Hg & _).
  apply subtree_subtrees in Hm.
  assert (In m (List.filter (counted gvr) (subtrees t))) as Hin.
  { apply filter_In. split; [by apply list_elem_of_In|].
    unfold counted. by rewrite bool_decide_eq_true_2. }
  by destruct (List.filter _ _).
Qed.

Lemma Count_zero_Find_witness :
  Count scenario "services" = 0 ∧ Find scenario "services" "foo" = None.
Proof.
  assert (Count scenario "services" = 0) as H by (vm_compute; reflexivity).
  split; [exact H|]. exact (Count_zero_Find scenario "services" "foo" H).
Defined.

Lemma sum_list_snoc (l : list nat) (n : nat) :
  sum_list (l ++ [n]) = sum_list l + n.
Proof. induction l as [|x l IH]; cbn; lia. Qed.

(** X6.  Count after Add is the count before plus the count of the added
    child.  The count of a node is the count of the node cleared plus the
    counts of its children, and a cleared node counts for one when its
    type is the one asked for or the empty type is asked for, for zero
    otherwise. *)
Theorem Count_Add_Clear (t c : TreeNode) (gvr : string) :
  Count (Add c t) gvr = Count t gvr + Count c gvr
  ∧ Count t gvr
    = Count (Clear t) gvr + sum_list (map (fun n => Count n gvr) (Children t))
  ∧ Count (Clear t) gvr = (if counted gvr t then 1 else 0).
Proof.
  rewrite !(Count_eq (Add c t)), !(Count_eq t), (Count_eq (Clear t)).
  cbn [Add Clear GVR Children]. rewrite !foldl_add, map_app. cbn [map].
  rewrite sum_list_snoc. cbn. unfold counted. repeat split; lia.
Qed.

(** ** MaxDepth *)

Lemma int_wrap_small z : (- 2 ^ 63 ≤ z < 2 ^ 63)%Z → int_wrap z = z.
Proof. intros H. unfold int_wrap. rewrite Z.mod_small; lia. Qed.

Lemma MaxDepth_eq t depth :
  MaxDepth t depth
  = foldl (fun max c =>
             let m := MaxDepth c (int_wrap (depth + 1)) in
             if (m >? max)%Z then m else max) depth (Children t).
Proof. by destruct t. Qed.

Lemma height_eq t :
  height t = foldr (fun c h => Nat.max (S (height c)) h) 0 (Children t).
Proof. by destruct t. Qed.

(** X7.  MaxDepth(depth) is depth plus the number of edges on the longest
    way down from the receiver, as long as this sum fits Go's int. *)
Theorem MaxDepth_height (t : TreeNode) (depth : Z) :
  (- 2 ^ 63 ≤ depth)%Z → (depth + Z.of_nat (height t) < 2 ^ 63)%Z →
  MaxDepth t depth = (depth + Z.of_nat (height t))%Z.
Proof.
  revert depth. induction t as [g i cs e IH] using TreeNode_ind'.
  intros depth Hlo Hhi. rewrite MaxDepth_eq, height_eq in *.
  cbn [Children] in *.
  set (H := foldr (fun c h => Nat.max (S (height c)) h) 0) in *.
  assert (∀ acc, (depth ≤ acc)%Z → (depth + Z.of_nat (H cs) < 2 ^ 63)%Z →
    foldl (fun max c =>
             let m := MaxDepth c (int_wrap (depth + 1)) in
             if (m >? max)%Z then m else max) acc cs
    = Z.max acc (depth + Z.of_nat (H cs))) as Hfold.
  { clear Hhi. induction IH as [|c cs Hc _ IHcs]; intros acc Hacc Hhi.
    - cbn. lia.
    - cbn [foldl]. unfold H in Hhi. cbn [foldr] in Hhi. fold (H cs) in Hhi.
      assert (MaxDepth c (int_wrap (depth + 1))
              = (depth + 1 + Z.of_nat (height c))%Z) as Hm.
      { rewrite int_wrap_small by lia. apply Hc; lia. }
      rewrite IHcs; cbn zeta; rewrite ?Hm.
      + unfold H. cbn [foldr]. fold (H cs).
        destruct (Z.gtb_spec (depth + 1 + Z.of_nat (height c)) acc); lia.
      + destruct (Z.gtb_spec (depth + 1 + Z.of_nat (height c)) acc); lia.
      + lia. }
  rewrite Hfold by lia. lia.
Qed.

Lemma MaxDepth_height_witness :
  (- 2 ^ 63 ≤ 0)%Z ∧ (0 + Z.of_nat (height scenario) < 2 ^ 63)%Z
  ∧ MaxDepth scenario 0 = 2%Z.
Proof.
  assert (- 2 ^ 63 ≤ 0)%Z as H1 by lia.
  assert (0 + Z.of_nat (height scenario) < 2 ^ 63)%Z as H2
    by (vm_compute; reflexivity).
  split; [exact H1|]. split; [exact H2|].
  exact (MaxDepth_height scenario 0 H1 H2).
Defined.

(** ** Flatten *)

Lemma child_paths_leaves c :
  length (child_paths c) = length (List.filter IsLeaf (subtrees c)).
Proof.
  induction c as [g i cs e IH] using TreeNode_ind'.
  rewrite child_paths_eq, subtrees_eq. cbn [Children List.filter].
  unfold below. cbn [Children].
  destruct (IsLeaf (mkTreeNode g i cs e)) eqn:Hleaf.
  - unfold IsLeaf in Hleaf. cbn in Hleaf. apply bool_decide_eq_true_1 in Hleaf.
    by destruct cs.
  - rewrite length_map. clear Hleaf.
    induction IH as [|c cs Hc _ IHcs]; [done|].
    cbn [flat_map]. rewrite List.filter_app, !length_app. by rewrite Hc, IHcs.
Qed.

(** X8.  Flatten yields one spec for every leaf strictly below the
    receiver, and nothing exactly when the receiver has no children. *)
Theorem Flatten_leaves (ups : list TreeNode) (t : TreeNode) :
  length (Flatten ups t) = length (List.filter IsLeaf (descendants t))
  ∧ (Flatten ups t = [] ↔ IsLeaf t = true).
Proof.
  rewrite Flatten_below. split.
  - rewrite length_map. unfold below, descendants.
    induction (Children t) as [|c cs IH]; [done|].
    cbn [flat_map]. rewrite List.filter_app, !length_app.
    by rewrite IH, child_paths_leaves.
  - unfold IsLeaf, below. rewrite bool_decide_eq_true.
    destruct (Children t) as [|c cs]; [done|]. cbn [flat_map].
    pose proof (child_paths_nonempty c).
    split; [|done]. by destruct (child_paths c).
Qed.

(** ** The chains of a spec *)

Lemma forallb_map_comp {A B} (f : B → bool) (g : A → B) (l : list A) :
  forallb f (map g l) = forallb (fun x => f (g x)) l.
Proof. induction l as [|x l IH]; [done|]. cbn. by rewrite IH. Qed.

(** X9.  When no type, identity or status on the way from a node up to
    the root holds a colon, the three chains of the node's Spec split
    back at PathSeparator into the types, the identities and the
    statuses of that way, the node's own first. *)
Theorem Spec_splits_back (chain : list TreeNode) :
  chain ≠ [] → forallb (fun n => seg_plain (seg_of n)) chain = true →
  strings_Split (specGVR (Spec chain)) PathSeparator = map GVR chain
  ∧ strings_Split (specPath (Spec chain)) PathSeparator = map ID chain
  ∧ strings_Split (specStatus (Spec chain)) PathSeparator
    = map status_of chain.
Proof.
  intros Hne Hplain. rewrite Spec_spec_of.
  assert (splits_back (map seg_of chain) = true) as H.
  { apply splits_back_plain; [by destruct chain|].
    by rewrite forallb_map_comp. }
  unfold splits_back in H. apply bool_decide_eq_true_1 in H.
  by rewrite !map_map in H.
Qed.

Lemma Spec_splits_back_witness :
  let pod := NewTreeNode "v1/pods" "default/foo" in
  let ns := NewTreeNode "v1/namespaces" "default" in
  [pod; ns] ≠ []
  ∧ forallb (fun n => seg_plain (seg_of n)) [pod; ns] = true
  ∧ strings_Split (specPath (Spec [pod; ns])) PathSeparator
    = ["default/foo"; "default"].
Proof.
  intros pod ns.
  assert ([pod; ns] ≠ []) as H1 by discriminate.
  assert (forallb (fun n => seg_plain (seg_of n)) [pod; ns] = true) as H2
    by (vm_compute; reflexivity).
  split; [exact H1|]. split; [exact H2|].
  exact (proj1 (proj2 (Spec_splits_back [pod; ns] H1 H2))).
Defined.

(** ** Filter on trees without colons *)

Lemma below_plain t p :
  plain t = true → In p (below t) → forallb seg_plain p = true.
Proof.
  rewrite plain_eq. intros [_ Hcs]%andb_prop Hin.
  unfold below in Hin. apply in_flat_map in Hin as (c & Hc & Hp).
  rewrite forallb_forall in Hcs. specialize (Hcs c Hc).
  apply child_paths_plain in Hcs. rewrite Forall_forall in Hcs.
  apply Hcs. by apply list_elem_of_In.
Qed.

Lemma Flatten_plain_spec ups t s :
  plain t = true → forallb (fun n => seg_plain (seg_of n)) ups = true →
  In s (Flatten ups t) →
  ∃ p, s = spec_of (rev p ++ map seg_of (t :: ups))
       ∧ splits_back (rev p ++ map seg_of (t :: ups)) = true.
Proof.
  intros Ht Hups Hin. rewrite Flatten_below in Hin.
  apply in_map_iff in Hin as (p & <- & Hp). exists p. split; [done|].
  apply splits_back_plain.
  - cbn. by destruct (rev p).
  - rewrite forallb_app, forallb_map_comp. cbn [forallb].
    rewrite Hups, andb_true_r. apply andb_true_intro. split.
    + pose proof (below_plain t p Ht Hp) as Hpl.
      rewrite forallb_forall in *. intros x Hx. apply Hpl. by apply in_rev.
    + rewrite plain_eq in Ht. by apply andb_prop in Ht as [-> _].
Qed.

(** X10.  On a tree without colons in its types, identities and
    statuses (and none in those of the nodes above it), Filter returns
    for every query and predicate: in every spec Hydrate finds as many
    types and statuses as identities. *)
Theorem Filter_plain_returns (ups : list TreeNode) (t : TreeNode) (q : string)
    (matches : string → string → bool) :
  plain t = true → forallb (fun n => seg_plain (seg_of n)) ups = true →
  ∃ r, Filter ups (Some t) q matches = Ok r.
Proof.
  intros Ht Hups. unfold Filter. case_bool_decide; [by eexists|].
  unfold Hydrate.
  match goal with
  | |- context [hydrate_refs ?root ?refs] =>
      pose proof (hydrate_refs_outcome root refs) as Hout;
      destruct (hydrate_refs root refs) as [r|e]
  end; [by eexists|].
  exfalso. destruct Hout as [_ Hex].
  apply Exists_exists in Hex as (s & Hin & Hshort).
  apply list_elem_of_In, filter_In in Hin as [Hin _].
  destruct (Flatten_plain_spec ups t s Ht Hups Hin) as (p & -> & Hsb).
  unfold splits_back in Hsb. apply bool_decide_eq_true_1 in Hsb.
  destruct Hsb as (Hg & Hi & Hs). unfold short in Hshort.
  rewrite Hg, Hi, Hs, !length_map in Hshort. lia.
Qed.

Lemma Filter_plain_returns_witness :
  plain scenario = true
  ∧ forallb (fun n => seg_plain (seg_of n)) [] = true
  ∧ ∃ r, Filter [] (Some scenario) "foo" starts_with = Ok r.
Proof.
  assert (plain scenario = true) as H1 by (vm_compute; reflexivity).
  assert (forallb (fun n => seg_plain (seg_of n)) [] = true) as H2
    by reflexivity.
  split; [exact H1|]. split; [exact H2|].
  exact (Filter_plain_returns [] scenario "foo" starts_with H1 H2).
Defined.

(** An identity that holds the separator gives the identity chain more
    segments than the type chain has, and Filter stops in Hydrate. *)
Lemma Filter_separator_in_identity :
  let t := Add (NewTreeNode "v1/pods" "default::foo")
               (NewTreeNode "v1/namespaces" "default") in
  plain t = false
  ∧ Filter [] (Some t) "" (fun _ _ => true) = Panic IndexOutOfRange.
Proof. cbv zeta. split; vm_compute; reflexivity. Qed.

(** ** What Hydrate and Filter build *)

(** X11.  In a tree Hydrate returns, the attributes of every node are its
    status and nothing else, and no node with children is blank. *)
Theorem Hydrate_result_shape (refs : list NodeSpec) (r : TreeNode) :
  Hydrate refs = Ok r →
  Forall (fun n => Extras n = {[ StatusKey := status_of n ]}
                   ∧ (Children n ≠ [] → ¬ (GVR n = "" ∧ ID n = "")))
         (subtrees r).
Proof.
  intros H. pose proof (Hydrate_status_only refs r H) as Hs.
  pose proof (Hydrate_inner_named refs r H) as Hn.
  unfold status_only in Hs. unfold inner_named in Hn.
  rewrite forallb_Forall in Hn. rewrite Forall_forall in *.
  intros n Hin. split; [by apply Hs|].
  intros Hkids [Hg Hi]. specialize (Hn n Hin).
  unfold IsLeaf, Blank in Hn. rewrite Hg, Hi in Hn.
  rewrite (bool_decide_eq_true_2 ("" = "")) in Hn by done. cbn in Hn.
  rewrite orb_false_r in Hn. apply bool_decide_eq_true_1 in Hn.
  by destruct (Children n).
Qed.

Lemma Hydrate_result_shape_witness :
  Hydrate scenario_specs = Ok scenario
  ∧ Forall (fun n => Extras n = {[ StatusKey := status_of n ]}
                     ∧ (Children n ≠ [] → ¬ (GVR n = "" ∧ ID n = "")))
           (subtrees scenario).
Proof.
  assert (Hydrate scenario_specs = Ok scenario) as H
    by (vm_compute; reflexivity).
  split; [exact H|]. exact (Hydrate_result_shape scenario_specs scenario H).
Defined.

(** X12.  In a tree Filter returns, every node has its status as its only
    attribute: whatever else the nodes of the filtered tree carried
    (InfoKey for one) is gone. *)
Theorem Filter_drops_attributes (ups : list TreeNode) (t : TreeNode)
    (q : string) (matches : string → string → bool) (r : TreeNode) :
  Filter ups (Some t) q matches = Ok (Some r) →
  Forall (fun n => ∀ k, Extras n !! k
                        = if bool_decide (k = StatusKey)
                          then Some (status_of n) else None)
         (subtrees r).
Proof.
  unfold Filter. case_bool_decide; [done|].
  destruct (Hydrate _) as [r'|e] eqn:Hh; [|done]. cbn. intros [= ->].
  apply Hydrate_status_only in Hh. unfold status_only in Hh.
  eapply Forall_impl; [exact Hh|]. cbv beta. intros n Hn k. rewrite Hn at 1.
  case_bool_decide as Hk.
  - subst k. by rewrite lookup_singleton_eq.
  - by rewrite lookup_singleton_ne.
Qed.

Lemma Filter_drops_attributes_witness :
  let pod := mkTreeNode "v1/pods" "default/foo" []
               {[ StatusKey := ToastStatus; InfoKey := "crash loop" ]} in
  let t := Add pod (NewTreeNode "v1/namespaces" "default") in
  let r := mkTreeNode "v1/namespaces" "default"
             [mkTreeNode "v1/pods" "default/foo" []
                {[ StatusKey := ToastStatus ]}]
             {[ StatusKey := OkStatus ]} in
  Filter [] (Some t) "default/foo" starts_with = Ok (Some r)
  ∧ Forall (fun n => ∀ k, Extras n !! k
                          = if bool_decide (k = StatusKey)
                            then Some (status_of n) else None)
           (subtrees r).
Proof.
  intros pod t r.
  assert (Filter [] (Some t) "default/foo" starts_with = Ok (Some r)) as H
    by (vm_compute; reflexivity).
  split; [exact H|].
  exact (Filter_drops_attributes [] t "default/foo" starts_with r H).
Defined.

(** ** What Filter keeps *)

Lemma prune_strip t : prune (fun _ => true) t = strip t.
Proof.
  induction t as [g i cs e IH] using TreeNode_ind'.
  rewrite prune_eq. cbn [strip GVR ID Children]. f_equal.
  unfold prune_children.
  induction IH as [|c cs Hc _ IHcs]; [done|].
  cbn [flat_map map]. rewrite IHcs, Hc.
  pose proof (child_paths_nonempty c). by destruct (child_paths c).
Qed.

Lemma filter_all {A} (K : A → bool) (l : list A) :
  (∀ x, K x = true) → List.filter K l = l.
Proof.
  intros H. induction l as [|x l IH]; [done|]. cbn. by rewrite H, IH.
Qed.

Lemma Filter_prune (T : TreeNode) (q : string)
    (matches : string → string → bool) :
  inner_named T = true → find_local T = true → codec_ok T = true →
  let keep := fun p : list seg => matches q (haystack (spec_of (rev p))) in
  Filter [] (Some T) q matches
  = if bool_decide (List.filter keep (root_paths T) = [])
    then Ok None else Ok (Some (prune keep T)).
Proof.
  intros Hb Hf Hc keep. unfold Filter.
  assert (List.filter (fun s => matches q (specPath s +:+ specStatus s))
                      (Flatten [] T)
          = map (fun p => spec_of (rev p)) (List.filter keep (root_paths T)))
    as -> by (by rewrite Flatten_root, filter_map_comm).
  rewrite length_map.
  case_bool_decide as Hlen; case_bool_decide as Hnil; try done.
  - by destruct (List.filter keep (root_paths T)).
  - by rewrite Hnil in Hlen.
  - by rewrite Hydrate_kept.
Qed.

(** X13.  Let no node of T that has children be blank, every child in T
    be the first node Find reaches from its parent for the child's type
    and identity, and every leaf lineage of T split back into its
    levels.  A tree Filter returns for T has the type and the identity of
    T at its root, and flattening it gives the specs of T that the
    predicate accepts, in their order. *)
Theorem Filter_keeps_matching_leaves (T T1 : TreeNode) (q : string)
    (matches : string → string → bool) :
  inner_named T = true → find_local T = true → codec_ok T = true →
  Filter [] (Some T) q matches = Ok (Some T1) →
  GVR T1 = GVR T ∧ ID T1 = ID T
  ∧ Flatten [] T1
    = List.filter (fun s => matches q (specPath s +:+ specStatus s))
                  (Flatten [] T).
Proof.
  intros Hb Hf Hc. rewrite Filter_prune by done. cbv zeta.
  case_bool_decide; [done|]. intros [= <-].
  match goal with
  | |- context [prune ?k T] => pose proof (seg_of_prune k T) as Hseg
  end.
  unfold seg_of in Hseg. injection Hseg as Hg Hi _.
  split; [done|]. split; [done|].
  rewrite !Flatten_root, root_paths_prune. by rewrite filter_map_comm.
Qed.

Lemma Filter_keeps_matching_leaves_witness :
  let T1 := mkTreeNode "namespaces" "default"
              [mkTreeNode "deployments" "foo"
                 [mkTreeNode "pods" "foo-2" [] {[ StatusKey := ToastStatus ]}]
                 {[ StatusKey := OkStatus ]}]
              {[ StatusKey := OkStatus ]} in
  inner_named scenario = true ∧ find_local scenario = true
  ∧ codec_ok scenario = true
  ∧ Filter [] (Some scenario) "foo-2" starts_with = Ok (Some T1)
  ∧ Flatten [] T1
    = List.filter (fun s => starts_with "foo-2" (specPath s +:+ specStatus s))
                  (Flatten [] scenario).
Proof.
  intros T1.
  assert (inner_named scenario = true) as H1 by (vm_compute; reflexivity).
  assert (find_local scenario = true) as H2 by (vm_compute; reflexivity).
  assert (codec_ok scenario = true) as H3 by (vm_compute; reflexivity).
  assert (Filter [] (Some scenario) "foo-2" starts_with = Ok (Some T1)) as H4
    by (vm_compute; reflexivity).
  do 4 (split; [assumption|]).
  exact (proj2 (proj2 (Filter_keeps_matching_leaves scenario T1 "foo-2"
                         starts_with H1 H2 H3 H4))).
Defined.

(** X14.  Under the same conditions and when T has children, Filter with
    a predicate that accepts everything returns T with the attributes of
    every node cut down to its status. *)
Theorem Filter_accept_all (T : TreeNode) (q : string)
    (matches : string → string → bool) :
  inner_named T = true → find_local T = true → codec_ok T = true →
  Children T ≠ [] → (∀ haystack, matches q haystack = true) →
  Filter [] (Some T) q matches = Ok (Some (strip T)).
Proof.
  intros Hb Hf Hc Hkids Hall. unfold Filter.
  rewrite filter_all by (intros s; apply Hall).
  rewrite Flatten_root, length_map, <- (filter_true (root_paths T)).
  assert (List.filter (fun _ => true) (root_paths T) ≠ []) as Hne.
  { rewrite filter_true. unfold root_paths, below.
    destruct (Children T) as [|c cs]; [done|]. cbn [flat_map].
    pose proof (child_paths_nonempty c). by destruct (child_paths c). }
  rewrite bool_decide_eq_false_2.
  - rewrite Hydrate_kept by done. cbn [obind]. by rewrite prune_strip.
  - by destruct (List.filter _ _).
Qed.

Lemma Filter_accept_all_witness :
  inner_named scenario = true ∧ find_local scenario = true
  ∧ codec_ok scenario = true ∧ Children scenario ≠ []
  ∧ (∀ haystack, starts_with "" haystack = true)
  ∧ Filter [] (Some scenario) "" starts_with = Ok (Some (strip scenario)).
Proof.
  assert (inner_named scenario = true) as H1 by (vm_compute; reflexivity).
  assert (find_local scenario = true) as H2 by (vm_compute; reflexivity).
  assert (codec_ok scenario = true) as H3 by (vm_compute; reflexivity).
  assert (Children scenario ≠ []) as H4 by discriminate.
  assert (∀ haystack, starts_with "" haystack = true) as H5
    by (intros h; by destruct h).
  do 5 (split; [assumption|]).
  exact (Filter_accept_all scenario "" starts_with H1 H2 H3 H4 H5).
Defined.

(** ** The root of what Hydrate builds *)

Lemma root_kept_step (g p s : string) st g' p' s' :
  ¬ (g = "" ∧ p = "") →
  label st.1 = (g, p, {[ StatusKey := s ]}) →
  label (hydrate_step st g' p' s').1 = (g, p, {[ StatusKey := s ]}).
Proof.
  destruct st as [root nav]. intros Hnb HP. unfold hydrate_step.
  cbn [fst] in *. destruct (subtree root nav) as [n|] eqn:Hn; [|done].
  assert (Blank root = false) as Hroot.
  { unfold label in HP. injection HP as Hg Hi _. unfold Blank.
    rewrite Hg, Hi. apply andb_false_iff.
    destruct (decide (g = "")) as [->|Hg'].
    - right. apply bool_decide_eq_false_2. intros ->. by apply Hnb.
    - left. by apply bool_decide_eq_false_2. }
  destruct (Blank n) eqn:HB.
  - destruct nav as [|k v]; cbn [fst alter_at].
    + cbn in Hn. injection Hn as ->. congruence.
    + done.
  - destruct (Find n g' p') as [v|]; [done|].
    destruct nav as [|k v]; cbn [fst alter_at]; done.
Qed.

Lemma Hydrate_root_label (ref : NodeSpec) (refs : list NodeSpec)
    (r : TreeNode) (g p s : string) :
  Hydrate (ref :: refs) = Ok r →
  strings_Split (specGVR ref) PathSeparator
    !! (length (strings_Split (specPath ref) PathSeparator) - 1) = Some g →
  strings_Split (specPath ref) PathSeparator
    !! (length (strings_Split (specPath ref) PathSeparator) - 1) = Some p →
  strings_Split (specStatus ref) PathSeparator
    !! (length (strings_Split (specPath ref) PathSeparator) - 1) = Some s →
  ¬ (g = "" ∧ p = "") →
  label r = (g, p, {[ StatusKey := s ]}).
Proof.
  intros Hh Hg Hp Hs Hnb.
  set (gvrs := strings_Split (specGVR ref) PathSeparator) in *.
  set (paths := strings_Split (specPath ref) PathSeparator) in *.
  set (statuses := strings_Split (specStatus ref) PathSeparator) in *.
  set (P := fun t : TreeNode => label t = (g, p, {[ StatusKey := s ]})).
  assert (∀ st g' p' s', P st.1 → P (hydrate_step st g' p' s').1) as Hstep.
  { intros st g' p' s'. by apply root_kept_step. }
  change (P r).
  unfold Hydrate in Hh. cbn [hydrate_refs] in Hh.
  destruct (hydrate_ref (NewTreeNode "" "") ref) as [r1|] eqn:H1; [|done].
  cbn [obind] in Hh.
  apply (hydrate_refs_invariant P Hstep refs r1 r); [|done].
  unfold hydrate_ref in H1. fold gvrs paths statuses in H1.
  destruct (length paths) as [|i] eqn:Hlen.
  { apply lookup_lt_Some in Hp. lia. }
  replace (S i - 1) with i in * by lia.
  cbn [hydrate_loop] in H1. unfold index in H1 at 1 2 3.
  rewrite Hg, Hp, Hs in H1. cbn [obind] in H1.
  destruct (hydrate_loop gvrs paths statuses i _) as [st|] eqn:Hloop; [|done].
  cbn [obind] in H1. injection H1 as <-.
  eapply (hydrate_loop_invariant P Hstep); [|exact Hloop].
  unfold hydrate_step. cbn [subtree].
  replace (Blank (NewTreeNode "" "")) with true by reflexivity.
  cbn [alter_at fst]. unfold P, label, assign, NewTreeNode.
  cbn [GVR ID Extras Children]. by rewrite insert_singleton_eq.
Qed.

(** X15.  The root of the tree Hydrate returns is the root-most level of
    the first spec (the one at the last index of its identity chain),
    when that level is not blank: its type, identity and status.  The
    specs that follow do not change it, whatever their own root-most
    levels are. *)
Theorem Hydrate_root (ref : NodeSpec) (refs : list NodeSpec) (r : TreeNode)
    (g p s : string) :
  let gvrs := strings_Split (specGVR ref) PathSeparator in
  let paths := strings_Split (specPath ref) PathSeparator in
  let statuses := strings_Split (specStatus ref) PathSeparator in
  Hydrate (ref :: refs) = Ok r →
  gvrs !! (length paths - 1) = Some g →
  paths !! (length paths - 1) = Some p →
  statuses !! (length paths - 1) = Some s →
  ¬ (g = "" ∧ p = "") →
  GVR r = g ∧ ID r = p ∧ Extras r = {[ StatusKey := s ]}.
Proof.
  intros gvrs paths statuses Hh Hg Hp Hs Hnb.
  pose proof (Hydrate_root_label ref refs r g p s Hh Hg Hp Hs Hnb) as HL.
  by injection HL.
Qed.

Lemma Hydrate_root_witness :
  let refs := [mkNodeSpec "pods::namespaces" "foo::default" "ok::ok";
               mkNodeSpec "pods::nodes" "bar::worker" "ok::toast"] in
  let r := mkTreeNode "namespaces" "default"
             [mkTreeNode "pods" "foo" [] {[ StatusKey := "ok" ]};
              mkTreeNode "nodes" "worker"
                [mkTreeNode "pods" "bar" [] {[ StatusKey := "ok" ]}]
                {[ StatusKey := "toast" ]}]
             {[ StatusKey := "ok" ]} in
  Hydrate refs = Ok r
  ∧ GVR r = "namespaces" ∧ ID r = "default"
  ∧ Extras r = {[ StatusKey := "ok" ]}.
Proof.
  intros refs r.
  assert (Hydrate refs = Ok r) as H by (vm_compute; reflexivity).
  split; [exact H|].
  refine (Hydrate_root _ _ r "namespaces" "default" "ok" H _ _ _ _).
  - reflexivity.
  - reflexivity.
  - reflexivity.
  - intros [Hg _]. discriminate Hg.
Defined.

(** ** Filter from a node below the root *)

Lemma lookup_map {A B} (f : A → B) (l : list A) (k : nat) :
  map f l !! k = f <$> l !! k.
Proof.
  revert k. induction l as [|x l IH]; intros [|k]; cbn; done.
Qed.

Lemma last_app_nonempty {A} (l1 l2 : list A) :
  l2 ≠ [] → last (l1 ++ l2) = last l2.
Proof. destruct l2 as [|x l2]; [done|]. intros _. apply last_app_cons. Qed.

Lemma last_map {A B} (f : A → B) (l : list A) :
  last (map f l) = f <$> last l.
Proof.
  induction l as [|x l IH]; [done|]. cbn [map]. rewrite !last_cons, IH.
  by destruct (last l).
Qed.

(** X16.  Filter on a node that has nodes above it answers a tree that
    starts at the topmost of them, not at the receiver: the specs of
    Flatten run up to the root, and Hydrate puts the root-most level
    first. *)
Theorem Filter_rooted_at_top (ups : list TreeNode) (t top r : TreeNode)
    (q : string) (matches : string → string → bool) :
  plain t = true → forallb (fun n => seg_plain (seg_of n)) ups = true →
  last (t :: ups) = Some top → Blank top = false →
  Filter ups (Some t) q matches = Ok (Some r) →
  GVR r = GVR top ∧ ID r = ID top
  ∧ Extras r = {[ StatusKey := status_of top ]}.
Proof.
  intros Ht Hups Htop Hnb HF. unfold Filter in HF.
  case_bool_decide as Hlen; [done|].
  destruct (Hydrate _) as [r'|] eqn:Hh; [|done]. cbn in HF.
  injection HF as ->.
  destruct (List.filter _ (Flatten ups t)) as [|s rest] eqn:Hm; [done|].
  assert (In s (Flatten ups t)) as Hin.
  { eapply (proj1 (filter_In _ s _)). rewrite Hm. by left. }
  destruct (Flatten_plain_spec ups t s Ht Hups Hin) as (p & -> & Hsb).
  set (L := rev p ++ map seg_of (t :: ups)) in *.
  unfold splits_back in Hsb. apply bool_decide_eq_true_1 in Hsb.
  destruct Hsb as (Hg & Hi & Hs).
  assert (L !! (length L - 1) = Some (seg_of top)) as Hlast.
  { replace (length L - 1) with (pred (length L)) by lia.
    rewrite <- last_lookup. unfold L.
    rewrite last_app_nonempty by done. by rewrite last_map, Htop. }
  assert (label r = (GVR top, ID top, {[ StatusKey := status_of top ]})) as HL.
  { apply (Hydrate_root_label _ rest _ _ _ _ Hh).
    - rewrite Hg, Hi, length_map, lookup_map, Hlast. done.
    - rewrite Hi, length_map, lookup_map, Hlast. done.
    - rewrite Hs, Hi, length_map, lookup_map, Hlast. done.
    - intros [Hgt Hit]. unfold Blank in Hnb. rewrite Hgt, Hit in Hnb.
      by rewrite !bool_decide_eq_true_2 in Hnb. }
  by injection HL.
Qed.

Lemma Filter_rooted_at_top_witness :
  let pods := [mkTreeNode "pods" "foo-1" [] {[ StatusKey := OkStatus ]};
               mkTreeNode "pods" "foo-2" [] {[ StatusKey := ToastStatus ]}] in
  let dep := mkTreeNode "deployments" "foo" pods {[ StatusKey := OkStatus ]} in
  let r := mkTreeNode "namespaces" "default"
             [mkTreeNode "deployments" "foo"
                [mkTreeNode "pods" "foo-2" [] {[ StatusKey := ToastStatus ]}]
                {[ StatusKey := OkStatus ]}]
             {[ StatusKey := OkStatus ]} in
  plain dep = true
  ∧ forallb (fun n => seg_plain (seg_of n)) [scenario] = true
  ∧ last [dep; scenario] = Some scenario ∧ Blank scenario = false
  ∧ Filter [scenario] (Some dep) "foo-2" starts_with = Ok (Some r)
  ∧ GVR r = GVR scenario ∧ ID r = ID scenario.
Proof.
  intros pods dep r.
  assert (plain dep = true) as H1 by (vm_compute; reflexivity).
  assert (forallb (fun n => seg_plain (seg_of n)) [scenario] = true) as H2
    by (vm_compute; reflexivity).
  assert (last [dep; scenario] = Some scenario) as H3 by reflexivity.
  assert (Blank scenario = false) as H4 by (vm_compute; reflexivity).
  assert (Filter [scenario] (Some dep) "foo-2" starts_with = Ok (Some r))
    as H5 by (vm_compute; reflexivity).
  do 5 (split; [assumption|]).
  destruct (Filter_rooted_at_top [scenario] dep scenario r "foo-2" starts_with
              H1 H2 H3 H4 H5) as (Hg & Hi & _).
  split; [exact Hg|exact Hi].
Defined.

(** ** Every level of every spec is in the tree Hydrate builds *)

Lemma existsb_flat_map {A B} (f : B → bool) (g : A → list B) (l : list A) :
  existsb f (flat_map g l) = existsb (fun x => existsb f (g x)) l.
Proof.
  induction l as [|x l IH]; [done|]. cbn. by rewrite existsb_app, IH.
Qed.

Lemma has_eq gvr id t :
  has gvr id t = is_match gvr id t || existsb (has gvr id) (Children t).
Proof.
  unfold has at 1. rewrite subtrees_eq. cbn [existsb].
  by rewrite existsb_flat_map.
Qed.

Lemma existsb_alter_mono {A} (K : A → bool) (F : A → A) : ∀ cs k,
  (∀ c, cs !! k = Some c → K c = true → K (F c) = true) →
  existsb K cs = true → existsb K (alter F k cs) = true.
Proof.
  induction cs as [|x cs IH]; intros k HF Hex; [done|].
  destruct k as [|k]; cbn in *.
  - apply orb_true_iff in Hex as [Hx|Hex].
    + by rewrite (HF x).
    + rewrite Hex. apply orb_true_r.
  - apply orb_true_iff in Hex as [Hx|Hex].
    + by rewrite Hx.
    + rewrite (IH k); [apply orb_true_r|done..].
Qed.

Lemma existsb_alter_new {A} (K : A → bool) (F : A → A) : ∀ cs k c,
  cs !! k = Some c → K (F c) = true → existsb K (alter F k cs) = true.
Proof.
  induction cs as [|x cs IH]; intros k c Hk HF; [done|].
  destruct k as [|k]; cbn in *.
  - injection Hk as ->. by rewrite HF.
  - rewrite (IH k c); [apply orb_true_r|done..].
Qed.

Lemma has_alter_at_mono gvr id f : ∀ nav t,
  (∀ n, subtree t nav = Some n →
        has gvr id n = true → has gvr id (f n) = true) →
  has gvr id t = true → has gvr id (alter_at f nav t) = true.
Proof.
  induction nav as [|k nav IH]; intros t Hf Ht; [by apply Hf|].
  cbn [alter_at]. rewrite has_eq in Ht |- *.
  cbn [Children]. unfold is_match in *. cbn [GVR ID].
  apply orb_true_iff in Ht as [Ht|Ht]; [by rewrite Ht|].
  rewrite existsb_alter_mono; [apply orb_true_r| |done].
  intros c Hc Hhas. apply IH; [|done].
  intros n Hn. apply Hf. cbn. by rewrite Hc.
Qed.

Lemma has_alter_at_new gvr id f : ∀ nav t n,
  subtree t nav = Some n → has gvr id (f n) = true →
  has gvr id (alter_at f nav t) = true.
Proof.
  induction nav as [|k nav IH]; intros t n Hn Hf.
  - cbn in *. by injection Hn as ->.
  - cbn in Hn. destruct (Children t !! k) as [c|] eqn:Hc; [|done].
    cbn [alter_at]. rewrite has_eq. cbn [Children].
    rewrite (existsb_alter_new _ _ _ _ c); [apply orb_true_r|done|].
    by eapply IH.
Qed.

Lemma has_subtree gvr id : ∀ nav t n,
  subtree t nav = Some n → has gvr id n = true → has gvr id t = true.
Proof.
  intros nav t n Hn Hhas.
  rewrite <- (alter_at_id nav t). by eapply has_alter_at_new.
Qed.

Lemma has_Find gvr id t : has gvr id t = true ↔ Find t gvr id ≠ None.
Proof.
  rewrite Find_None_subtrees. unfold has. rewrite existsb_exists.
  rewrite Forall_forall. split.
  - intros (n & Hin & Hm) Hall. apply list_elem_of_In in Hin.
    specialize (Hall n Hin). congruence.
  - intros Hnot. destruct (existsb (is_match gvr id) (subtrees t)) eqn:Hex.
    + by apply existsb_exists in Hex.
    + exfalso. apply Hnot. intros n Hin. apply list_elem_of_In in Hin.
      destruct (is_match gvr id n) eqn:Hm; [|done].
      assert (existsb (is_match gvr id) (subtrees t) = true) as Hex'
        by (apply existsb_exists; eauto).
      congruence.
Qed.

Lemma step_valid st g p s :
  is_Some (subtree st.1 st.2) →
  is_Some (subtree (hydrate_step st g p s).1 (hydrate_step st g p s).2).
Proof.
  destruct st as [root nav]. intros [n Hn]. cbn [fst snd] in *.
  unfold hydrate_step. rewrite Hn. destruct (Blank n).
  - cbn [fst snd]. rewrite (subtree_alter_at _ _ _ n Hn). by eexists.
  - destruct (Find n g p) as [v|] eqn:Hv; cbn [fst snd].
    + rewrite subtree_app, Hn. cbn.
      apply Find_found in Hv as (m & -> & _). by eexists.
    + rewrite subtree_app, (subtree_alter_at _ _ _ n Hn).
      cbn [mbind option_bind]. rewrite subtree_Add. by eexists.
Qed.

Lemma step_keeps st g p s gvr id :
  ¬ (gvr = "" ∧ id = "") →
  has gvr id st.1 = true → has gvr id (hydrate_step st g p s).1 = true.
Proof.
  destruct st as [root nav]. intros Hnb Hhas. cbn [fst] in *.
  unfold hydrate_step. destruct (subtree root nav) as [n|] eqn:Hn; [|done].
  destruct (Blank n) eqn:HB.
  - cbn [fst]. apply has_alter_at_mono; [|done].
    intros n' Hn'. rewrite Hn in Hn'. injection Hn' as <-.
    rewrite !has_eq. unfold assign. cbn [Children].
    intros [Hm|Hc]%orb_true_iff; [|rewrite Hc; apply orb_true_r].
    exfalso. apply Hnb. unfold is_match, Blank in *.
    apply andb_prop in Hm as [Hg%bool_decide_eq_true_1 Hi%bool_decide_eq_true_1].
    apply andb_prop in HB as [Hg'%bool_decide_eq_true_1 Hi'%bool_decide_eq_true_1].
    split; congruence.
  - destruct (Find n g p) as [v|]; [done|]. cbn [fst].
    apply has_alter_at_mono; [|done].
    intros n' Hn'. rewrite !has_eq. unfold Add, is_match. cbn [Children GVR ID].
    intros [Hm|Hc]%orb_true_iff; [by rewrite Hm|].
    rewrite existsb_app, Hc. apply orb_true_r.
Qed.

Lemma step_makes st g p s :
  is_Some (subtree st.1 st.2) → has g p (hydrate_step st g p s).1 = true.
Proof.
  destruct st as [root nav]. intros [n Hn]. cbn [fst snd] in *.
  unfold hydrate_step. rewrite Hn. destruct (Blank n).
  - cbn [fst]. eapply has_alter_at_new; [done|].
    rewrite has_eq. unfold assign, is_match. cbn [GVR ID].
    by rewrite !bool_decide_eq_true_2.
  - destruct (Find n g p) as [v|] eqn:Hv; cbn [fst].
    + eapply has_subtree; [done|]. apply has_Find. by rewrite Hv.
    + eapply has_alter_at_new; [done|].
      rewrite has_eq. unfold Add. cbn [Children].
      rewrite existsb_app. cbn [existsb]. rewrite (has_eq _ _ (new_child g p s)).
      unfold new_child, assign, is_match. cbn [GVR ID].
      rewrite (bool_decide_eq_true_2 (g = g)) by done.
      rewrite (bool_decide_eq_true_2 (p = p)) by done. cbn [andb orb].
      by rewrite !orb_true_r.
Qed.

Lemma hydrate_loop_found gvrs paths statuses : ∀ k st st',
  is_Some (subtree st.1 st.2) →
  hydrate_loop gvrs paths statuses k st = Ok st' →
  (∀ gvr id, ¬ (gvr = "" ∧ id = "") →
             has gvr id st.1 = true → has gvr id st'.1 = true)
  ∧ (∀ i g p, i < k → gvrs !! i = Some g → paths !! i = Some p →
              ¬ (g = "" ∧ p = "") → has g p st'.1 = true).
Proof.
  induction k as [|k IH]; intros st st' Hv Hl; cbn [hydrate_loop] in Hl.
  - injection Hl as <-. split; [done|]. intros; lia.
  - unfold index in Hl at 1 2 3.
    destruct (gvrs !! k) as [g|] eqn:Hg; [|done]. cbn [obind] in Hl.
    destruct (paths !! k) as [p|] eqn:Hp; [|done]. cbn [obind] in Hl.
    destruct (statuses !! k) as [s|] eqn:Hs; [|done]. cbn [obind] in Hl.
    destruct (IH _ _ (step_valid st g p s Hv) Hl) as [Hmono Hfound].
    split.
    + intros gvr id Hnb Hhas. apply Hmono; [done|]. by apply step_keeps.
    + intros i g' p' Hi Hg' Hp' Hnb.
      destruct (decide (i = k)) as [->|Hne].
      * rewrite Hg in Hg'. rewrite Hp in Hp'.
        injection Hg' as <-. injection Hp' as <-.
        apply Hmono; [done|]. by apply step_makes.
      * apply (Hfound i); [lia|done..].
Qed.

Lemma hydrate_refs_found : ∀ refs root r,
  hydrate_refs root refs = Ok r →
  (∀ gvr id, ¬ (gvr = "" ∧ id = "") →
             has gvr id root = true → has gvr id r = true)
  ∧ (∀ ref i g p, ref ∈ refs →
       strings_Split (specGVR ref) PathSeparator !! i = Some g →
       strings_Split (specPath ref) PathSeparator !! i = Some p →
       ¬ (g = "" ∧ p = "") → has g p r = true).
Proof.
  induction refs as [|ref refs IH]; intros root r Hh; cbn [hydrate_refs] in Hh.
  - injection Hh as <-. split; [done|]. intros ref i g p Hin. set_solver.
  - destruct (hydrate_ref root ref) as [r1|] eqn:H1; [|done].
    cbn [obind] in Hh. destruct (IH _ _ Hh) as [Hmono Hfound].
    unfold hydrate_ref in H1.
    destruct (hydrate_loop _ _ _ _ _) as [st|] eqn:Hl; [|done].
    cbn [obind] in H1. injection H1 as <-.
    apply hydrate_loop_found in Hl as [Hmono1 Hfound1]; [|by eexists].
    split.
    + intros gvr id Hnb Hhas. apply Hmono; [done|]. by apply Hmono1.
    + intros ref' i g p Hin Hg Hp Hnb.
      apply elem_of_cons in Hin as [->|Hin].
      * apply Hmono; [done|]. apply (Hfound1 i); [|done..].
        by eapply lookup_lt_Some.
      * by eapply Hfound.
Qed.

(** X17.  Every level of every spec can be found in the tree Hydrate
    returns: for a level that is not blank, Find from the root reaches a
    node of that type and identity. *)
Theorem Hydrate_levels_found (refs : list NodeSpec) (r : TreeNode)
    (ref : NodeSpec) (i : nat) (g p : string) :
  Hydrate refs = Ok r → ref ∈ refs →
  strings_Split (specGVR ref) PathSeparator !! i = Some g →
  strings_Split (specPath ref) PathSeparator !! i = Some p →
  ¬ (g = "" ∧ p = "") →
  ∃ v n, Find r g p = Some v ∧ subtree r v = Some n ∧ GVR n = g ∧ ID n = p.
Proof.
  intros Hh Hin Hg Hp Hnb. unfold Hydrate in Hh.
  apply hydrate_refs_found in Hh as [_ Hfound].
  specialize (Hfound ref i g p Hin Hg Hp Hnb). apply has_Find in Hfound.
  destruct (Find r g p) as [v|] eqn:Hv; [|done].
  destruct (Find_found _ _ _ _ Hv) as (n & Hn & Hgn & Hin').
  by exists v, n.
Qed.

Lemma Hydrate_levels_found_witness :
  let ref := mkNodeSpec "pods::deployments::namespaces" "foo-2::foo::default"
                        "toast::ok::ok" in
  Hydrate scenario_specs = Ok scenario ∧ ref ∈ scenario_specs
  ∧ ∃ v n, Find scenario "pods" "foo-2" = Some v
           ∧ subtree scenario v = Some n ∧ GVR n = "pods" ∧ ID n = "foo-2".
Proof.
  intros ref.
  assert (Hydrate scenario_specs = Ok scenario) as H1
    by (vm_compute; reflexivity).
  assert (ref ∈ scenario_specs) as H2
    by (apply list_elem_of_further, list_elem_of_here).
  split; [exact H1|]. split; [exact H2|].
  refine (Hydrate_levels_found scenario_specs scenario ref 0 "pods" "foo-2"
            H1 H2 _ _ _).
  - reflexivity.
  - reflexivity.
  - intros [Hg _]. discriminate Hg.
Defined.

(** ** Sort keeps the nodes *)

Lemma label_Sort srt t : label (Sort srt t) = label t.
Proof. by destruct t. Qed.

Lemma Sort_labels srt t :
  sorts srt →
  Permutation (map label (subtrees (Sort srt t))) (map label (subtrees t)).
Proof.
  intros Hs. induction t as [g i cs e IH] using TreeNode_ind'.
  rewrite Sort_eq, !subtrees_eq. cbn [GVR ID Children Extras map].
  apply perm_skip.
  transitivity (map label (flat_map subtrees (map (Sort srt) cs))).
  - apply Permutation_map, Permutation_flat_map, Hs.
  - induction IH as [|c cs Hc _ IHcs]; [done|].
    cbn [map flat_map]. rewrite !map_app. by apply Permutation_app.
Qed.

Lemma Permutation_filter_length {A} (K : A → bool) (l l' : list A) :
  Permutation l l' → length (List.filter K l) = length (List.filter K l').
Proof.
  induction 1 as [|x l l' _ IH|x y l|l l' l'' _ IH1 _ IH2]; cbn.
  - done.
  - destruct (K x); cbn; by rewrite IH.
  - by destruct (K x), (K y).
  - by rewrite IH1.
Qed.

(** X18.  Sort keeps the nodes: the types, identities and attributes of
    the nodes of the sorted tree are those of the tree, up to their
    order.  Count answers the same for every type, and Find answers nil
    after Sort exactly when it did before. *)
Theorem Sort_keeps_nodes (sort_Sort : list TreeNode → list TreeNode)
    (t : TreeNode) (gvr id : string) :
  sorts sort_Sort →
  Permutation (map label (subtrees (Sort sort_Sort t)))
              (map label (subtrees t))
  ∧ Count (Sort sort_Sort t) gvr = Count t gvr
  ∧ (Find (Sort sort_Sort t) gvr id = None ↔ Find t gvr id = None).
Proof.
  intros Hs. pose proof (Sort_labels sort_Sort t Hs) as Hp.
  split; [done|]. split.
  - rewrite !Count_counted.
    set (K := fun x : string * string * gmap string string =>
                bool_decide (x.1.1 = gvr) || bool_decide (gvr = "")).
    assert (∀ l, length (List.filter (counted gvr) l)
                 = length (List.filter K (map label l))) as Hl.
    { intros l. by rewrite filter_map_comm, length_map. }
    rewrite !Hl. by apply Permutation_filter_length.
  - rewrite !Find_None_subtrees.
    set (K := fun x : string * string * gmap string string =>
                bool_decide (x.1.1 = gvr) && bool_decide (x.1.2 = id) = false).
    assert (∀ l, Forall (fun n => is_match gvr id n = false) l
                 ↔ Forall K (map label l)) as Hl.
    { intros l. by rewrite List.Forall_map. }
    rewrite !Hl. split; apply Permutation_Forall; [done|by symmetry].
Qed.

Lemma Sort_keeps_nodes_witness :
  sorts insertion_sort
  ∧ Count (Sort insertion_sort scenario) "pods" = Count scenario "pods".
Proof.
  split; [exact insertion_sort_sorts|].
  exact (proj1 (proj2 (Sort_keeps_nodes insertion_sort scenario "pods" ""
                         insertion_sort_sorts))).
Defined.

(** ** Swap *)

Lemma insert_swap_head {A} (l : list A) : ∀ k x y,
  l !! k = Some y → Permutation (y :: <[ k := x ]> l) (x :: l).
Proof.
  induction l as [|z l IH]; intros k x y Hk; [done|].
  destruct k as [|k]; cbn in *.
  - injection Hk as ->. apply perm_swap.
  - rewrite perm_swap, (IH _ _ _ Hk). apply perm_swap.
Qed.

Lemma insert_swap_perm {A} (c : list A) : ∀ i j ci cj,
  c !! i = Some ci → c !! j = Some cj →
  Permutation (<[ j := ci ]> (<[ i := cj ]> c)) c.
Proof.
  induction c as [|x c IH]; intros i j ci cj Hi Hj; [done|].
  destruct i as [|i], j as [|j]; cbn in *.
  - injection Hi as ->. by injection Hj as ->.
  - injection Hi as ->. by apply insert_swap_head.
  - injection Hj as ->. by apply insert_swap_head.
  - apply perm_skip. by eapply IH.
Qed.

(** X19.  Swap with both indexes in range exchanges the two elements and
    leaves the others where they are: the result is a permutation of the
    slice, of the same length, and swapping again gives the slice back.
    With an index out of range Swap stops with an index-out-of-range
    panic. *)
Theorem Swap_exchanges (c : list TreeNode) (i j : nat) :
  (i < Len c ∧ j < Len c →
   ∃ c', Swap c i j = Ok c'
         ∧ Permutation c' c ∧ Len c' = Len c
         ∧ c' !! i = c !! j ∧ c' !! j = c !! i
         ∧ (∀ k, k ≠ i → k ≠ j → c' !! k = c !! k)
         ∧ Swap c' i j = Ok c)
  ∧ (¬ (i < Len c ∧ j < Len c) → Swap c i j = Panic IndexOutOfRange).
Proof.
  unfold Swap, Len, index. split.
  - intros [Hi Hj].
    destruct (lookup_lt_is_Some_2 c i Hi) as [ci Hci].
    destruct (lookup_lt_is_Some_2 c j Hj) as [cj Hcj].
    rewrite Hci, Hcj. cbn [obind]. eexists. split; [done|].
    assert (<[ j := ci ]> (<[ i := cj ]> c) !! j = Some ci) as Hj'.
    { apply list_lookup_insert_eq. by rewrite length_insert. }
    assert (<[ j := ci ]> (<[ i := cj ]> c) !! i = Some cj) as Hi'.
    { destruct (decide (i = j)) as [->|Hne].
      - rewrite Hj'. congruence.
      - rewrite list_lookup_insert_ne by done.
        by apply list_lookup_insert_eq. }
    split; [by eapply insert_swap_perm|].
    split; [by rewrite !length_insert|].
    split; [congruence|]. split; [congruence|]. split.
    + intros k Hki Hkj. by rewrite !list_lookup_insert_ne.
    + rewrite Hi', Hj'. cbn [obind]. f_equal.
      apply list_eq. intros k.
      destruct (decide (k = j)) as [->|Hkj].
      * rewrite list_lookup_insert_eq; [done|]. by rewrite !length_insert.
      * rewrite list_lookup_insert_ne by done.
        destruct (decide (k = i)) as [->|Hki].
        -- rewrite list_lookup_insert_eq; [done|]. by rewrite !length_insert.
        -- by rewrite !list_lookup_insert_ne.
  - intros Hout. destruct (c !! j) as [cj|] eqn:Hcj; cbn [obind]; [|done].
    destruct (c !! i) as [ci|] eqn:Hci; cbn [obind]; [|done].
    exfalso. apply Hout. split; by eapply lookup_lt_Some.
Qed.

Lemma Swap_exchanges_witness :
  let a := NewTreeNode "v1/pods" "default/a" in
  let b := NewTreeNode "v1/pods" "default/b" in
  (0 < Len [a; b] ∧ 1 < Len [a; b]) ∧ Swap [a; b] 0 1 = Ok [b; a]
  ∧ ¬ (0 < Len [a; b] ∧ 2 < Len [a; b])
  ∧ Swap [a; b] 0 2 = Panic IndexOutOfRange.
Proof.
  intros a b.
  assert (0 < Len [a; b] ∧ 1 < Len [a; b]) as H1 by (cbn; lia).
  assert (¬ (0 < Len [a; b] ∧ 2 < Len [a; b])) as H2 by (cbn; lia).
  split; [exact H1|]. split; [reflexivity|]. split; [exact H2|].
  exact (proj2 (Swap_exchanges [a; b] 0 2) H2).
Defined.

(** ** Parent links: Level, Root, IsRoot, Add and Clear *)

Lemma level_loop_ups h : ∀ l a lvl fuel,
  Links.ups h a l → (0 ≤ lvl)%Z →
  (lvl + Z.of_nat (length l) + 1 < 2 ^ 63)%Z → length l < fuel →
  Links.level_loop fuel h (Some a) lvl
  = Some (Ok (lvl + Z.of_nat (length l) + 1)%Z).
Proof.
  induction l as [|b l IH]; intros a lvl fuel Hups Hlo Hhi Hfuel;
    (destruct fuel as [|fuel]; [cbn in Hfuel; lia|]); cbn [Links.level_loop].
  - destruct Hups as (n & -> & ->). cbn in *.
    destruct fuel; cbn; rewrite int_wrap_small by lia; do 2 f_equal; lia.
  - destruct Hups as (n & -> & -> & Hups). cbn [length] in *.
    rewrite int_wrap_small by lia.
    rewrite (IH b) by (done || lia). do 2 f_equal. lia.
Qed.

Lemma Root_ups h : ∀ l a fuel,
  Links.ups h a l → length l < fuel →
  Links.Root fuel (Some a) h = Some (Ok (last (a :: l))).
Proof.
  induction l as [|b l IH]; intros a fuel Hups Hfuel;
    (destruct fuel as [|fuel]; [cbn in Hfuel; lia|]); cbn [Links.Root].
  - by destruct Hups as (n & -> & ->).
  - destruct Hups as (n & -> & -> & Hups). cbn [length] in *.
    by rewrite (IH b) by (done || lia).
Qed.

Lemma Level_Root_along_parents_aux (h : Shared.Heap) (t : Shared.addr)
    (l : list Shared.addr) (fuel : nat) :
  Links.ups h t l → (Z.of_nat (length l) + 1 < 2 ^ 63)%Z → length l < fuel →
  Links.Level fuel (Some t) h = Some (Ok (Z.of_nat (length l)))
  ∧ Links.Root fuel (Some t) h = Some (Ok (last (t :: l)))
  ∧ Links.IsRoot (Some t) h = Ok (bool_decide (l = [])).
Proof.
  intros Hups Hhi Hfuel. split; [|split].
  - unfold Links.Level. rewrite (level_loop_ups h l) by (done || lia).
    rewrite int_wrap_small by lia. do 2 f_equal. lia.
  - by apply Root_ups.
  - unfold Links.IsRoot. destruct l as [|b l].
    + by destruct Hups as (n & -> & ->).
    + by destruct Hups as (n & -> & -> & _).
Qed.

(** X20.  The level of a node is the number of nodes above it, its root
    is the topmost of them (the node itself when there is none), and it
    is a root exactly when there is none.  On nil, Level answers -1 and
    Root nil, and IsRoot stops with a nil dereference. *)
Theorem Level_Root_along_parents (h : Shared.Heap) (t : Shared.addr)
    (l : list Shared.addr) (fuel : nat) :
  Links.ups h t l → (Z.of_nat (length l) + 1 < 2 ^ 63)%Z → length l < fuel →
  Links.Level fuel (Some t) h = Some (Ok (Z.of_nat (length l)))
  ∧ Links.Root fuel (Some t) h = Some (Ok (last (t :: l)))
  ∧ Links.IsRoot (Some t) h = Ok (bool_decide (l = []))
  ∧ Links.Level fuel None h = Some (Ok (-1)%Z)
  ∧ Links.Root fuel None h = Some (Ok None)
  ∧ Links.IsRoot None h = Panic NilDereference.
Proof.
  intros Hups Hhi Hfuel.
  destruct (Level_Root_along_parents_aux h t l fuel Hups Hhi Hfuel)
    as (H1 & H2 & H3).
  do 3 (split; [assumption|]). repeat split; by destruct fuel.
Qed.

Lemma Level_Root_along_parents_witness :
  let '(h, ns, pod) := Links.two_nodes in
  Links.ups h ns [] ∧ (Z.of_nat (length (@nil Shared.addr)) + 1 < 2 ^ 63)%Z
  ∧ length (@nil Shared.addr) < 1
  ∧ Links.Level 1 (Some ns) h = Some (Ok 0%Z)
  ∧ Links.Root 1 (Some ns) h = Some (Ok (Some ns)).
Proof.
  assert (Links.ups Links.two_nodes.1.1 Links.two_nodes.1.2 []) as H1.
  { eexists. split; [vm_compute; reflexivity|reflexivity]. }
  assert (Z.of_nat (length (@nil Shared.addr)) + 1 < 2 ^ 63)%Z as H2
    by (cbn; lia).
  assert (length (@nil Shared.addr) < 1) as H3 by (cbn; lia).
  pose proof (Level_Root_along_parents _ _ [] 1 H1 H2 H3) as (H4 & H5 & _).
  split; [exact H1|]. split; [exact H2|]. split; [exact H3|].
  split; [exact H4|exact H5].
Defined.

(** What Add and Clear change. *)

Lemma Add_effect h t c :
  is_Some (Shared.nodes h !! t) → is_Some (Shared.nodes h !! c) →
  ∃ h', Links.Add (Some t) (Some c) h = Ok h'
        ∧ (∀ x, Links.parent_at h' x
                = if bool_decide (x = c) then Some (Some t)
                  else Links.parent_at h x)
        ∧ (∀ x, Links.children_at h' x
                = if bool_decide (x = t)
                  then (fun cs => cs ++ [c]) <$> Links.children_at h x
                  else Links.children_at h x)
        ∧ Shared.maps h' = Shared.maps h.
Proof.
  intros [tn Ht] [cn Hc]. unfold Links.Add. rewrite Hc.
  cbn [Shared.nodes Shared.maps].
  destruct (decide (t = c)) as [->|Hne].
  - rewrite lookup_insert_eq. eexists. split; [done|].
    unfold Links.parent_at, Links.children_at. cbn [Shared.nodes Shared.maps].
    split; [|split; [|done]]; intros x; case_bool_decide as Hx.
    + subst x. by rewrite lookup_insert_eq.
    + by rewrite !lookup_insert_ne.
    + subst x. rewrite lookup_insert_eq, Hc. done.
    + by rewrite !lookup_insert_ne.
  - rewrite lookup_insert_ne, Ht by done. eexists. split; [done|].
    unfold Links.parent_at, Links.children_at. cbn [Shared.nodes Shared.maps].
    split; [|split; [|done]]; intros x; case_bool_decide as Hx.
    + subst x. by rewrite lookup_insert_ne, lookup_insert_eq.
    + destruct (decide (x = t)) as [->|Hxt].
      * by rewrite lookup_insert_eq, Ht.
      * by rewrite !lookup_insert_ne.
    + subst x. by rewrite lookup_insert_eq, Ht.
    + destruct (decide (x = c)) as [->|Hxc].
      * by rewrite lookup_insert_ne, lookup_insert_eq, Hc.
      * by rewrite !lookup_insert_ne.
Qed.

Lemma ups_parent_at h a l :
  Links.ups h a l → Links.parent_at h a = Some (head l).
Proof.
  unfold Links.parent_at. destruct l as [|b l].
  - intros (n & -> & Hp). cbn. by rewrite Hp.
  - intros (n & -> & Hp & _). cbn. by rewrite Hp.
Qed.

Lemma ups_is_Some h a l : Links.ups h a l → is_Some (Shared.nodes h !! a).
Proof. destruct l as [|b l]; intros (n & Hn & _); by exists n. Qed.

Lemma ups_frame h h' : ∀ l a,
  Links.ups h a l →
  (∀ x, x ∈ a :: l → Links.parent_at h' x = Links.parent_at h x) →
  Links.ups h' a l.
Proof.
  induction l as [|b l IH]; intros a Hups Hsame.
  - destruct Hups as (n & Hn & Hp).
    specialize (Hsame a ltac:(set_solver)). unfold Links.parent_at in Hsame.
    rewrite Hn in Hsame. cbn in Hsame.
    destruct (Shared.nodes h' !! a) as [n'|] eqn:Hn'; [|done].
    exists n'. split; [done|]. cbn in Hsame. congruence.
  - destruct Hups as (n & Hn & Hp & Hups).
    pose proof (Hsame a ltac:(set_solver)) as Ha.
    unfold Links.parent_at in Ha. rewrite Hn in Ha. cbn in Ha.
    destruct (Shared.nodes h' !! a) as [n'|] eqn:Hn'; [|done].
    exists n'. split; [done|]. split; [cbn in Ha; congruence|].
    apply IH; [done|]. intros x Hx. apply Hsame. set_solver.
Qed.

Lemma level_loop_frame h h' :
  (∀ x, Links.parent_at h' x = Links.parent_at h x) →
  ∀ fuel p lvl,
    Links.level_loop fuel h' p lvl = Links.level_loop fuel h p lvl.
Proof.
  intros Hsame. induction fuel as [|fuel IH]; intros p lvl; [done|].
  destruct p as [a|]; [|done]. cbn [Links.level_loop].
  specialize (Hsame a). unfold Links.parent_at in Hsame.
  destruct (Shared.nodes h' !! a) as [n'|], (Shared.nodes h !! a) as [n|];
    try done.
  cbn in Hsame. injection Hsame as ->. apply IH.
Qed.

Lemma Root_frame h h' :
  (∀ x, Links.parent_at h' x = Links.parent_at h x) →
  ∀ fuel p, Links.Root fuel p h' = Links.Root fuel p h.
Proof.
  intros Hsame. induction fuel as [|fuel IH]; intros p; [done|].
  destruct p as [a|]; [|done]. cbn [Links.Root].
  specialize (Hsame a). unfold Links.parent_at in Hsame.
  destruct (Shared.nodes h' !! a) as [n'|], (Shared.nodes h !! a) as [n|];
    try done.
  cbn in Hsame. injection Hsame as ->. by rewrite IH.
Qed.

(** X21.  Add appends the child to the Children of the receiver and puts
    it one level below the receiver and under the same root, when the
    child is neither the receiver nor one of the nodes above it. *)
Theorem Add_child_level (h : Shared.Heap) (t c : Shared.addr)
    (l : list Shared.addr) (fuel : nat) :
  Links.ups h t l → is_Some (Shared.nodes h !! c) → c ∉ t :: l →
  (Z.of_nat (length l) + 2 < 2 ^ 63)%Z → S (length l) < fuel →
  ∃ h', Links.Add (Some t) (Some c) h = Ok h'
        ∧ Links.children_at h' t
          = (fun cs => cs ++ [c]) <$> Links.children_at h t
        ∧ Links.Level fuel (Some t) h' = Some (Ok (Z.of_nat (length l)))
        ∧ Links.Level fuel (Some c) h' = Some (Ok (Z.of_nat (length l) + 1)%Z)
        ∧ Links.Root fuel (Some c) h' = Links.Root fuel (Some t) h'
        ∧ Links.IsRoot (Some c) h' = Ok false.
Proof.
  intros Hups Hc Hnotin Hhi Hfuel.
  destruct (Add_effect h t c (ups_is_Some _ _ _ Hups) Hc)
    as (h' & HAdd & Hpar & Hkids & _).
  exists h'. split; [done|].
  assert (Links.ups h' t l) as Hups'.
  { apply (ups_frame h); [done|]. intros x Hx. rewrite Hpar.
    case_bool_decide; [by subst x|done]. }
  assert (Links.ups h' c (t :: l)) as Hupc.
  { specialize (Hpar c). rewrite bool_decide_eq_true_2 in Hpar by done.
    unfold Links.parent_at in Hpar.
    destruct (Shared.nodes h' !! c) as [n'|] eqn:Hn'; [|done].
    exists n'. split; [done|]. split; [|done]. cbn in Hpar. congruence. }
  split. { specialize (Hkids t). by rewrite bool_decide_eq_true_2 in Hkids. }
  destruct (Level_Root_along_parents_aux h' t l fuel) as (Ht1 & Ht2 & _);
    [done|lia|lia|].
  destruct (Level_Root_along_parents_aux h' c (t :: l) fuel)
    as (Hc1 & Hc2 & Hc3); [done|cbn [length]; lia|cbn [length]; lia|].
  split; [done|]. split.
  { rewrite Hc1. cbn [length]. do 2 f_equal. lia. }
  split; [by rewrite Hc2, Ht2, last_cons_cons|done].
Qed.

Lemma Add_child_level_witness :
  let '(h, ns, pod) := Links.two_nodes in
  Links.ups h ns [] ∧ is_Some (Shared.nodes h !! pod) ∧ (pod ∉ [ns])
  ∧ ∃ h', Links.Add (Some ns) (Some pod) h = Ok h'
          ∧ Links.Level 2 (Some pod) h' = Some (Ok 1%Z)
          ∧ Links.Root 2 (Some pod) h' = Links.Root 2 (Some ns) h'.
Proof.
  assert (Links.ups Links.two_nodes.1.1 Links.two_nodes.1.2 []) as H1.
  { eexists. split; [vm_compute; reflexivity|reflexivity]. }
  assert (is_Some (Shared.nodes Links.two_nodes.1.1 !! Links.two_nodes.2)) as H2.
  { eexists. vm_compute. reflexivity. }
  assert (Links.two_nodes.2 ∉ [Links.two_nodes.1.2]) as H3.
  { intros H. apply list_elem_of_singleton in H. vm_compute in H. lia. }
  assert (Z.of_nat (length (@nil Shared.addr)) + 2 < 2 ^ 63)%Z as H4
    by (cbn; lia).
  assert (S (length (@nil Shared.addr)) < 2) as H5 by (cbn; lia).
  destruct (Add_child_level _ _ _ [] 2 H1 H2 H3 H4 H5)
    as (h' & Ha & _ & _ & Hl & Hr & _).
  split; [exact H1|]. split; [exact H2|]. split; [exact H3|].
  exists h'. split; [exact Ha|]. split; [exact Hl|exact Hr].
Defined.

(** A set of nodes that Parent never leaves: the loops of Level and
    Root do not end in it. *)
Lemma parents_closed_loop h (cyc : list Shared.addr) :
  (∀ x, x ∈ cyc → ∃ y, y ∈ cyc ∧ Links.parent_at h x = Some (Some y)) →
  ∀ fuel x lvl, x ∈ cyc →
    Links.level_loop fuel h (Some x) lvl = None
    ∧ Links.Root fuel (Some x) h = None.
Proof.
  intros Hcyc. induction fuel as [|fuel IH]; intros x lvl Hx; [done|].
  destruct (Hcyc x Hx) as (y & Hy & Hp). unfold Links.parent_at in Hp.
  cbn [Links.level_loop Links.Root].
  destruct (Shared.nodes h !! x) as [n|]; [|done]. cbn in Hp.
  injection Hp as ->. split; by apply IH.
Qed.

Lemma ups_prefix_parents h c post : ∀ pre a l,
  Links.ups h a l → a :: l = pre ++ c :: post →
  ∀ x, x ∈ pre → ∃ y, y ∈ pre ++ [c] ∧ Links.parent_at h x = Some (Some y).
Proof.
  induction pre as [|a' pre IH]; intros a l Hups Heq x Hx; [set_solver|].
  injection Heq as <- ->.
  assert (∃ b l', pre ++ c :: post = b :: l' ∧ b ∈ pre ++ [c])
    as (b & l' & Hbl & Hb).
  { destruct pre as [|b pre]; cbn; eexists _, _; (split; [done|]);
      set_solver. }
  rewrite Hbl in Hups. destruct Hups as (n & Hn & Hp & Hups).
  apply elem_of_cons in Hx as [->|Hx].
  - exists b. split; [set_solver|]. unfold Links.parent_at.
    rewrite Hn. cbn. by rewrite Hp.
  - destruct (IH b l' Hups (eq_sym Hbl) x Hx) as (y & Hy & Hpy).
    exists y. split; [set_solver|done].
Qed.

(** X22.  Add does not look for cycles: when the child is the receiver
    itself or one of the nodes above it, Add returns, and from then on
    neither Level nor Root returns for the receiver, whatever the number
    of turns. *)
Theorem Add_ancestor_loops (h : Shared.Heap) (t c : Shared.addr)
    (l : list Shared.addr) :
  Links.ups h t l → c ∈ t :: l →
  ∃ h', Links.Add (Some t) (Some c) h = Ok h'
        ∧ ∀ fuel, Links.Level fuel (Some t) h' = None
                  ∧ Links.Root fuel (Some t) h' = None.
Proof.
  intros Hups Hin.
  apply list_elem_of_split_l in Hin as (pre & post & Heq & Hpre).
  assert (is_Some (Shared.nodes h !! c)) as Hc.
  { assert (Links.parent_at h c ≠ None) as Hpc.
    { clear Hpre. revert t l Hups Heq.
      induction pre as [|a pre IH]; intros t l Hups Heq.
      - injection Heq as -> _. by rewrite (ups_parent_at _ _ _ Hups).
      - injection Heq as -> ->. destruct pre as [|b pre]; cbn in Hups.
        + destruct Hups as (n & _ & _ & Hups).
          by rewrite (ups_parent_at _ _ _ Hups).
        + destruct Hups as (n & _ & _ & Hups). by eapply IH. }
    unfold Links.parent_at in Hpc. by destruct (Shared.nodes h !! c). }
  destruct (Add_effect h t c (ups_is_Some _ _ _ Hups) Hc)
    as (h' & HAdd & Hpar & _).
  exists h'. split; [done|].
  assert (t ∈ pre ++ [c]) as Ht.
  { destruct pre as [|a pre]; injection Heq as ->; set_solver. }
  assert (∀ x, x ∈ pre ++ [c] →
               ∃ y, y ∈ pre ++ [c] ∧ Links.parent_at h' x = Some (Some y))
    as Hcyc.
  { intros x Hx. rewrite Hpar. case_bool_decide as Hxc.
    - by exists t.
    - apply elem_of_app in Hx as [Hx|Hx]; [|set_solver].
      by eapply ups_prefix_parents. }
  intros fuel.
  destruct (parents_closed_loop h' _ Hcyc fuel t 0%Z Ht) as [Hl Hr].
  split; [|done]. unfold Links.Level. by rewrite Hl.
Qed.

Lemma Add_ancestor_loops_witness :
  let '(h, ns, pod) := Links.two_nodes in
  Links.ups h ns [] ∧ ns ∈ [ns]
  ∧ ∃ h', Links.Add (Some ns) (Some ns) h = Ok h'
          ∧ ∀ fuel, Links.Level fuel (Some ns) h' = None
                    ∧ Links.Root fuel (Some ns) h' = None.
Proof.
  assert (Links.ups Links.two_nodes.1.1 Links.two_nodes.1.2 []) as H1.
  { eexists. split; [vm_compute; reflexivity|reflexivity]. }
  assert (Links.two_nodes.1.2 ∈ [Links.two_nodes.1.2]) as H2
    by apply list_elem_of_here.
  split; [exact H1|]. split; [exact H2|].
  exact (Add_ancestor_loops _ _ _ [] H1 H2).
Defined.

(** X23.  Add does not take the child away from the node that held it:
    the former parent keeps the child in its Children, while the child's
    Parent names the new one. *)
Theorem Add_does_not_detach (h : Shared.Heap) (t c o : Shared.addr)
    (cs : list Shared.addr) :
  is_Some (Shared.nodes h !! t) → is_Some (Shared.nodes h !! c) →
  Links.children_at h o = Some cs → c ∈ cs → o ≠ t →
  ∃ h' ts, Links.Add (Some t) (Some c) h = Ok h'
           ∧ Links.children_at h' o = Some cs
           ∧ Links.children_at h' t = Some (ts ++ [c])
           ∧ Links.parent_at h' c = Some (Some t).
Proof.
  intros Ht Hc Ho Hin Hne.
  destruct (Add_effect h t c Ht Hc) as (h' & HAdd & Hpar & Hkids & _).
  destruct Ht as [tn Ht].
  exists h', (Shared.nChildren tn). split; [done|]. split; [|split].
  - by rewrite Hkids, bool_decide_eq_false_2.
  - rewrite Hkids, bool_decide_eq_true_2 by done.
    unfold Links.children_at. by rewrite Ht.
  - by rewrite Hpar, bool_decide_eq_true_2.
Qed.

Lemma Add_does_not_detach_witness :
  let h := (Shared.NewTreeNode "apps/v1/deployments" "default/foo"
              Links.two_nodes.1.1).1 in
  let dep := (Shared.NewTreeNode "apps/v1/deployments" "default/foo"
                Links.two_nodes.1.1).2 in
  let ns := Links.two_nodes.1.2 in
  let pod := Links.two_nodes.2 in
  ∃ h1, Links.Add (Some ns) (Some pod) h = Ok h1
        ∧ is_Some (Shared.nodes h1 !! dep) ∧ is_Some (Shared.nodes h1 !! pod)
        ∧ Links.children_at h1 ns = Some [pod] ∧ pod ∈ [pod] ∧ ns ≠ dep
        ∧ ∃ h2 ts, Links.Add (Some dep) (Some pod) h1 = Ok h2
                   ∧ Links.children_at h2 ns = Some [pod]
                   ∧ Links.children_at h2 dep = Some (ts ++ [pod])
                   ∧ Links.parent_at h2 pod = Some (Some dep).
Proof.
  intros h dep ns pod. eexists.
  split; [vm_compute; reflexivity|].
  match goal with
  | |- is_Some (Shared.nodes ?h1 !! _) ∧ _ =>
      assert (is_Some (Shared.nodes h1 !! dep)) as H1
        by (eexists; vm_compute; reflexivity);
      assert (is_Some (Shared.nodes h1 !! pod)) as H2
        by (eexists; vm_compute; reflexivity);
      assert (Links.children_at h1 ns = Some [pod]) as H3
        by (vm_compute; reflexivity);
      assert (pod ∈ [pod]) as H4 by apply list_elem_of_here;
      assert (ns ≠ dep) as H5 by (vm_compute; lia);
      do 5 (split; [assumption|]);
      exact (Add_does_not_detach h1 dep pod ns [pod] H1 H2 H3 H4 H5)
  end.
Defined.

(** X24.  Clear empties the Children of the receiver and touches nothing
    else: the nodes it lets go of keep their Parent, so that every Level
    and every Root is what it was. *)
Theorem Clear_keeps_parents (h : Shared.Heap) (t : Shared.addr) :
  is_Some (Shared.nodes h !! t) →
  ∃ h', Links.Clear (Some t) h = Ok h'
        ∧ Links.children_at h' t = Some []
        ∧ (∀ x, x ≠ t → Shared.nodes h' !! x = Shared.nodes h !! x)
        ∧ (∀ x, Links.parent_at h' x = Links.parent_at h x)
        ∧ (∀ fuel x, Links.Level fuel x h' = Links.Level fuel x h
                     ∧ Links.Root fuel x h' = Links.Root fuel x h).
Proof.
  intros [tn Ht]. unfold Links.Clear. rewrite Ht. eexists. split; [done|].
  assert (∀ x, Links.parent_at
                 (Shared.mkHeap
                    (<[ t := Links.with_children tn [] ]> (Shared.nodes h))
                    (Shared.maps h)) x
               = Links.parent_at h x) as Hpar.
  { intros x. unfold Links.parent_at. cbn [Shared.nodes].
    destruct (decide (x = t)) as [->|Hx].
    - by rewrite lookup_insert_eq, Ht.
    - by rewrite lookup_insert_ne. }
  split; [|split; [|split; [done|]]].
  - unfold Links.children_at. cbn [Shared.nodes]. by rewrite lookup_insert_eq.
  - intros x Hx. cbn [Shared.nodes]. by rewrite lookup_insert_ne.
  - intros fuel x. unfold Links.Level.
    by rewrite (level_loop_frame _ _ Hpar), (Root_frame _ _ Hpar).
Qed.

Lemma Clear_keeps_parents_witness :
  let h := Links.two_nodes.1.1 in
  let ns := Links.two_nodes.1.2 in
  let pod := Links.two_nodes.2 in
  ∃ h1, Links.Add (Some ns) (Some pod) h = Ok h1
        ∧ Links.children_at h1 ns = Some [pod]
        ∧ is_Some (Shared.nodes h1 !! ns)
        ∧ ∃ h2, Links.Clear (Some ns) h1 = Ok h2
                ∧ Links.children_at h2 ns = Some []
                ∧ Links.parent_at h2 pod = Some (Some ns).
Proof.
  intros h ns pod. eexists.
  split; [vm_compute; reflexivity|].
  split; [vm_compute; reflexivity|].
  match goal with
  | |- is_Some (Shared.nodes ?h1 !! _) ∧ _ =>
      assert (is_Some (Shared.nodes h1 !! ns)) as H1
        by (eexists; vm_compute; reflexivity);
      split; [exact H1|];
      destruct (Clear_keeps_parents h1 ns H1) as (h2 & Hc & Hk & _ & Hp & _);
      exists h2; split; [exact Hc|]; split; [exact Hk|];
      rewrite Hp; vm_compute; reflexivity
  end.
Defined.
